(** * io-ts runtime types: a shallow embedding of the combinator library

    The development follows the library's [index] module (the runtime types
    and their combinators, in [src/test/strictInterfaceWithOptionals.ts]),
    its path reporter (in [src/src/ThrowReporter.ts]) and the helper type
    [DateFromNumber] of [src/test/helpers.ts].

    JavaScript values are embedded as primitives plus references into an
    explicit store, because the combinators compare containers by identity
    ([validation !== x], [a === o]) and write into them ([a[i] = validation]).
    Every function that reads or writes a container is therefore written in
    a small state-and-exception monad over the store.  Numbers include NaN,
    the infinities and fractions, and a property read falls back on the
    built-in prototypes, as [o[k]] does.

    [recursion], [readonly] and [readonlyArray] are not embedded: no
    statement below depends on them. *)

From Stdlib Require Import Ascii.
From stdpp Require Import base list strings gmap pretty.

#[local] Set Warnings "-register-all".
#[local] Open Scope string_scope.
#[local] Open Scope list_scope.

(** ** Numbers *)

(** A JavaScript number, named by the shortest decimal that denotes it
    (the one [String] prints): NaN, an infinity, a whole number, or a
    number with a fractional part.  [Fraction negative whole digits] is
    [whole] plus the fraction whose decimal digits are those of [digits]
    read from the right, negated when [negative] holds:
    [Fraction false 1 5] is [1.5] and [Fraction true 0 52] is [-0.25].  A
    positive [digits] never starts with a zero, so the fraction never ends
    in one, and two numbers are equal exactly when their terms are.  Zero
    carries no sign ([-0 === 0], and both print as ["0"]).  Every 64-bit
    float has its term; the type also holds decimals that no float denotes,
    and no arithmetic is defined on it: the code computes nothing on a
    number apart from [n % 1 === 0], [new Date(n)] and [String(n)]. *)
Inductive Number :=
| NaN
| Infinity (negative : bool)
| Whole (z : Z)
| Fraction (negative : bool) (whole : N) (digits : positive).

Bind Scope Z_scope with Number.
Coercion Whole : Z >-> Number.

#[global] Instance Number_eq_dec : EqDecision Number.
Proof. solve_decision. Defined.

(** [isNaN(n)] on a number. *)
Definition isNaN (n : Number) : bool :=
  match n with NaN => true | _ => false end.

(** [n % 1 === 0]: the remainder of NaN or an infinity is NaN. *)
Definition is_whole (n : Number) : bool :=
  match n with Whole _ => true | _ => false end.

(** [TimeClip] of ECMAScript, as [new Date(n)] applies it: NaN for a
    number that is not finite or lies more than 8.64e15 ms from the epoch,
    else the number with its fractional part dropped. *)
Definition TimeClip (n : Number) : Number :=
  match n with
  | Whole z => if bool_decide (Z.abs z <= 8640000000000000)%Z then Whole z else NaN
  | Fraction negative whole _ =>
      if bool_decide (whole < 8640000000000000)%N
      then Whole (if negative then - Z.of_N whole else Z.of_N whole)
      else NaN
  | _ => NaN
  end.

Fixpoint drop_zeros (s : string) : string :=
  match s with
  | String a s' => if bool_decide (a = "0"%char) then drop_zeros s' else s
  | EmptyString => s
  end.

Definition zeros (n : Z) : string := String.concat "" (replicate (Z.to_nat n) "0").

(** [Number::toString] of ECMAScript for the positive number
    [0.s * 10^n], where [s] is its digit string without leading or
    trailing zeros. *)
Definition decimal_toString (s : string) (n : Z) : string :=
  let k := Z.of_nat (String.length s) in
  if bool_decide (k <= n <= 21)%Z then s +:+ zeros (n - k)
  else if bool_decide (0 < n <= 21)%Z
       then String.substring 0 (Z.to_nat n) s +:+ "." +:+
            String.substring (Z.to_nat n) (String.length s - Z.to_nat n) s
  else if bool_decide (-6 < n <= 0)%Z then "0." +:+ zeros (- n) +:+ s
  else
    let e := (n - 1)%Z in
    let exponent := (if bool_decide (0 <= e)%Z then "e+" else "e-") +:+ pretty (Z.abs e) in
    match s with
    | String d EmptyString => s +:+ exponent
    | String d rest => String d ("." +:+ rest) +:+ exponent
    | EmptyString => exponent
    end.

(** [String(n)] *)
Definition Number_toString (x : Number) : string :=
  match x with
  | NaN => "NaN"
  | Infinity negative => if negative then "-Infinity" else "Infinity"
  | Whole 0 => "0"
  | Whole z =>
      let ds := pretty (Z.abs z) in
      (if bool_decide (z < 0)%Z then "-" else "") +:+
      decimal_toString (String.rev (drop_zeros (String.rev ds))) (Z.of_nat (String.length ds))
  | Fraction negative whole digits =>
      let fs := String.rev (pretty (Npos digits)) in
      (if negative then "-" else "") +:+
      (if bool_decide (whole = 0%N)
       then decimal_toString (drop_zeros fs)
              (Z.of_nat (String.length (drop_zeros fs)) - Z.of_nat (String.length fs))
       else decimal_toString (pretty whole +:+ fs) (Z.of_nat (String.length (pretty whole))))
  end.

(** ** Values and the store *)

Definition loc := nat.

(** The objects every program starts with: the prototype of a class
    ([Object.prototype], [Array.prototype], ...), its constructor (the
    global function [Object], [Array], ...) and the methods a prototype
    holds.  They are reached by reading an inherited property. *)
Inductive builtin :=
| Prototype (class : string)
| Constructor (class : string)
| Method (class : string) (method_name : string).

#[global] Instance builtin_eq_dec : EqDecision builtin.
Proof. solve_decision. Defined.

(** [mixed]: the primitive kinds, a reference to a store object, or a
    built-in object. *)
Inductive mixed :=
| VUndefined
| VNull
| VBoolean (b : bool)
| VNumber (n : Number)
| VString (s : string)
| VRef (l : loc)
| VBuiltin (b : builtin).

#[global] Instance mixed_eq_dec : EqDecision mixed.
Proof. solve_decision. Defined.

(** What a function object shows to [getFunctionName]. *)
Record FunctionInfo := mkFunctionInfo {
  displayName : string;
  function_name : string;
  function_length : nat
}.

(** Store objects.  A dictionary keeps its own enumerable properties in
    enumeration order; an array is dense; a date holds its time value,
    which is NaN for an invalid date. *)
Inductive object :=
| OArray (elems : list mixed)
| ODictionary (entries : list (string * mixed))
| ODate (time : Number)
| OFunction (info : FunctionInfo).

Definition heap := list object.

(** [typeof m] *)
Definition typeof (h : heap) (m : mixed) : string :=
  match m with
  | VUndefined => "undefined"
  | VNull => "object"
  | VBoolean _ => "boolean"
  | VNumber _ => "number"
  | VString _ => "string"
  | VRef l => match h !! l with
              | Some (OFunction _) => "function"
              | _ => "object"
              end
  | VBuiltin (Prototype class) =>
      if bool_decide (class = "Function") then "function" else "object"
  | VBuiltin _ => "function"
  end.

(** [a === b] on values: primitives by value, objects by reference; NaN
    is not equal to anything, itself included. *)
Definition strict_eq (a b : mixed) : bool :=
  match a with
  | VNumber NaN => false
  | _ => bool_decide (a = b)
  end.

(** [Array.isArray]: [Array.prototype] is itself an (empty) array. *)
Definition Array_isArray (h : heap) (m : mixed) : bool :=
  match m with
  | VRef l => match h !! l with Some (OArray _) => true | _ => false end
  | VBuiltin (Prototype class) => bool_decide (class = "Array")
  | _ => false
  end.

(** [String(i)] for an index, and the index a property key denotes in an
    array of length [n]. *)
Definition index_key (i : nat) : string := pretty i.

Definition key_index (n : nat) (k : string) : option nat :=
  snd <$> list_find (fun i => bool_decide (index_key i = k)) (seq 0 n).

Fixpoint assoc {A : Type} (k : string) (l : list (string * A)) : option A :=
  match l with
  | [] => None
  | (k', v) :: l' => if bool_decide (k' = k) then Some v else assoc k l'
  end.

(** [o.hasOwnProperty(k)] on a literal object given by its entries. *)
Definition hasOwnProperty {A : Type} (o : list (string * A)) (k : string) : bool :=
  bool_decide (is_Some (assoc k o)).

(** *** Inherited properties *)

(** The string-keyed properties a prototype owns (ECMAScript 2023 with
    the legacy names of its annex B). *)
Definition Object_prototype : list string :=
  ["constructor"; "__defineGetter__"; "__defineSetter__"; "hasOwnProperty";
   "__lookupGetter__"; "__lookupSetter__"; "isPrototypeOf"; "propertyIsEnumerable";
   "toString"; "valueOf"; "__proto__"; "toLocaleString"].

Definition Array_prototype : list string :=
  ["length"; "constructor"; "at"; "concat"; "copyWithin"; "fill"; "find"; "findIndex";
   "findLast"; "findLastIndex"; "lastIndexOf"; "pop"; "push"; "reverse"; "shift";
   "unshift"; "slice"; "sort"; "splice"; "includes"; "indexOf"; "join"; "keys";
   "entries"; "values"; "forEach"; "filter"; "flat"; "flatMap"; "map"; "every"; "some";
   "reduce"; "reduceRight"; "toLocaleString"; "toString"; "toReversed"; "toSorted";
   "toSpliced"; "with"].

Definition Date_prototype : list string :=
  ["constructor"; "toString"; "toDateString"; "toTimeString"; "toISOString";
   "toUTCString"; "toGMTString"; "getDate"; "setDate"; "getDay"; "getFullYear";
   "setFullYear"; "getHours"; "setHours"; "getMilliseconds"; "setMilliseconds";
   "getMinutes"; "setMinutes"; "getMonth"; "setMonth"; "getSeconds"; "setSeconds";
   "getTime"; "setTime"; "getTimezoneOffset"; "getUTCDate"; "setUTCDate"; "getUTCDay";
   "getUTCFullYear"; "setUTCFullYear"; "getUTCHours"; "setUTCHours";
   "getUTCMilliseconds"; "setUTCMilliseconds"; "getUTCMinutes"; "setUTCMinutes";
   "getUTCMonth"; "setUTCMonth"; "getUTCSeconds"; "setUTCSeconds"; "valueOf";
   "getYear"; "setYear"; "toJSON"; "toLocaleString"; "toLocaleDateString";
   "toLocaleTimeString"].

Definition Function_prototype : list string :=
  ["length"; "name"; "constructor"; "apply"; "bind"; "call"; "toString"].

Definition String_prototype : list string :=
  ["length"; "constructor"; "anchor"; "at"; "big"; "blink"; "bold"; "charAt";
   "charCodeAt"; "codePointAt"; "concat"; "endsWith"; "fontcolor"; "fontsize"; "fixed";
   "includes"; "indexOf"; "isWellFormed"; "italics"; "lastIndexOf"; "link";
   "localeCompare"; "match"; "matchAll"; "normalize"; "padEnd"; "padStart"; "repeat";
   "replace"; "replaceAll"; "search"; "slice"; "small"; "split"; "strike"; "sub";
   "substr"; "substring"; "sup"; "startsWith"; "toString"; "toWellFormed"; "trim";
   "trimStart"; "trimLeft"; "trimEnd"; "trimRight"; "toLocaleLowerCase";
   "toLocaleUpperCase"; "toLowerCase"; "toUpperCase"; "valueOf"].

Definition Number_prototype : list string :=
  ["constructor"; "toExponential"; "toFixed"; "toPrecision"; "toString"; "valueOf";
   "toLocaleString"].

Definition Boolean_prototype : list string :=
  ["constructor"; "toString"; "valueOf"].

Definition prototype_names (class : string) : list string :=
  if bool_decide (class = "Object") then Object_prototype
  else if bool_decide (class = "Array") then Array_prototype
  else if bool_decide (class = "Date") then Date_prototype
  else if bool_decide (class = "Function") then Function_prototype
  else if bool_decide (class = "String") then String_prototype
  else if bool_decide (class = "Number") then Number_prototype
  else if bool_decide (class = "Boolean") then Boolean_prototype
  else [].

(** The value a prototype holds under one of its names: its constructor,
    the empty [length] and [name] of a prototype that is itself an array,
    a string or a function, else a method.  Three legacy names hold the
    method of the modern name. *)
Definition prototype_member (class : string) (k : string) : mixed :=
  if bool_decide (k = "constructor") then VBuiltin (Constructor class)
  else if bool_decide (k = "length") then VNumber 0
  else if bool_decide (k = "name") then VString ""
  else if bool_decide (k = "toGMTString") then VBuiltin (Method class "toUTCString")
  else if bool_decide (k = "trimLeft") then VBuiltin (Method class "trimStart")
  else if bool_decide (k = "trimRight") then VBuiltin (Method class "trimEnd")
  else VBuiltin (Method class k).

(** [Object.getPrototypeOf] of a value (of its wrapper, for a primitive). *)
Definition prototype_of (h : heap) (o : mixed) : mixed :=
  match o with
  | VUndefined | VNull => VNull
  | VBoolean _ => VBuiltin (Prototype "Boolean")
  | VNumber _ => VBuiltin (Prototype "Number")
  | VString _ => VBuiltin (Prototype "String")
  | VRef l =>
      match h !! l with
      | Some (OArray _) => VBuiltin (Prototype "Array")
      | Some (ODate _) => VBuiltin (Prototype "Date")
      | Some (OFunction _) => VBuiltin (Prototype "Function")
      | _ => VBuiltin (Prototype "Object")
      end
  | VBuiltin (Prototype class) =>
      if bool_decide (class = "Object") then VNull else VBuiltin (Prototype "Object")
  | VBuiltin _ => VBuiltin (Prototype "Function")
  end.

(** The property [k] as found on the prototype [proto] or further up the
    chain, which ends at [Object.prototype]; [__proto__] reads the
    receiver's prototype. *)
Definition inherited (proto : mixed) (k : string) : mixed :=
  match proto with
  | VBuiltin (Prototype class) =>
      if bool_decide (k ∈ prototype_names class)
      then (if bool_decide (k = "__proto__") then proto else prototype_member class k)
      else if bool_decide (k ∈ Object_prototype)
      then (if bool_decide (k = "__proto__") then proto else prototype_member "Object" k)
      else VUndefined
  | _ => VUndefined
  end.

(** The own property [k] of a value, if it has one.  A function owns its
    [name] and [length], and a [displayName] when one was set; its
    [prototype], [arguments] and [caller] are not modelled, nor is the
    [length] of a built-in function. *)
Definition get_own (h : heap) (o : mixed) (k : string) : option mixed :=
  match o with
  | VRef l =>
      match h !! l with
      | Some (OArray elems) =>
          match key_index (length elems) k with
          | Some i => elems !! i
          | None => if bool_decide (k = "length")
                    then Some (VNumber (Z.of_nat (length elems))) else None
          end
      | Some (ODictionary entries) => assoc k entries
      | Some (OFunction info) =>
          if bool_decide (k = "name") then Some (VString (function_name info))
          else if bool_decide (k = "length")
          then Some (VNumber (Z.of_nat (function_length info)))
          else if bool_decide (k = "displayName") && negb (bool_decide (displayName info = ""))
          then Some (VString (displayName info))
          else None
      | _ => None
      end
  | VString s =>
      match key_index (String.length s) k with
      | Some i => Some (VString (String.substring i 1 s))
      | None => if bool_decide (k = "length")
                then Some (VNumber (Z.of_nat (String.length s))) else None
      end
  | VBuiltin (Prototype class) =>
      if bool_decide (k ∈ prototype_names class)
      then Some (if bool_decide (k = "__proto__") then prototype_of h o
                 else prototype_member class k)
      else None
  | VBuiltin (Constructor class) =>
      if bool_decide (k = "name") then Some (VString class)
      else if bool_decide (k = "prototype") then Some (VBuiltin (Prototype class))
      else None
  | VBuiltin (Method _ method_name) =>
      if bool_decide (k = "name") then Some (VString method_name) else None
  | _ => None
  end.

(** [o[k]] for a string key: the own property, else the inherited one,
    else [undefined].  (On [null] and [undefined] the read throws; see
    [getM].) *)
Definition get (h : heap) (o : mixed) (k : string) : mixed :=
  match get_own h o k with
  | Some v => v
  | None => inherited (prototype_of h o) k
  end.

(** [xs[i]] for a numeric index. *)
Definition get_index (h : heap) (xs : mixed) (i : nat) : mixed :=
  match xs with
  | VRef l =>
      match h !! l with
      | Some (OArray elems) => default VUndefined (elems !! i)
      | Some (ODictionary entries) => default VUndefined (assoc (index_key i) entries)
      | _ => VUndefined
      end
  | VString s =>
      if decide (i < String.length s) then VString (String.substring i 1 s) else VUndefined
  | _ => VUndefined
  end.

(** [xs.length] of an array ([0] stands in for a missing length). *)
Definition array_length (h : heap) (xs : mixed) : nat :=
  match xs with
  | VRef l => match h !! l with Some (OArray elems) => length elems | _ => 0 end
  | _ => 0
  end.

(** [Object.getOwnPropertyNames(o)]: an array also owns [length]. *)
Definition getOwnPropertyNames (h : heap) (o : mixed) : list string :=
  match o with
  | VRef l =>
      match h !! l with
      | Some (OArray elems) => (index_key <$> seq 0 (length elems)) ++ ["length"]
      | Some (ODictionary entries) => fst <$> entries
      | _ => []
      end
  | VBuiltin (Prototype class) => prototype_names class
  | _ => []
  end.

(** The own enumerable properties, as [{ ...o }] and [for (k in o)] see
    them: the elements of an array, the entries of a plain object, the
    characters of a string; a built-in object has none. *)
Definition own_enumerable (h : heap) (o : mixed) : list (string * mixed) :=
  match o with
  | VRef l =>
      match h !! l with
      | Some (OArray elems) => zip (index_key <$> seq 0 (length elems)) elems
      | Some (ODictionary entries) => entries
      | _ => []
      end
  | VString s =>
      (fun i => (index_key i, VString (String.substring i 1 s))) <$> seq 0 (String.length s)
  | _ => []
  end.

(** Assignment to an array slot: JavaScript extends the array when the
    index is past its end. *)
Definition array_set (elems : list mixed) (i : nat) (v : mixed) : list mixed :=
  if decide (i < length elems) then <[i := v]> elems
  else elems ++ replicate (i - length elems) VUndefined ++ [v].

Fixpoint entries_set (entries : list (string * mixed)) (k : string) (v : mixed)
  : list (string * mixed) :=
  match entries with
  | [] => [(k, v)]
  | (k', v') :: rest =>
      if bool_decide (k' = k) then (k, v) :: rest else (k', v') :: entries_set rest k v
  end.

(** ** The state-and-exception monad *)

Inductive outcome (A : Type) :=
| Ok (a : A) (h : heap)
| Throw (msg : string).
Arguments Ok {A} a h.
Arguments Throw {A} msg.

Definition M (A : Type) : Type := heap -> outcome A.

Definition ret {A} (a : A) : M A := fun h => Ok a h.

Definition bind {A B} (m : M A) (f : A -> M B) : M B :=
  fun h => match m h with
           | Ok a h' => f a h'
           | Throw msg => Throw msg
           end.

Definition throw {A} (msg : string) : M A := fun _ => Throw msg.

(** Read-only access to the store. *)
Definition reads {A} (f : heap -> A) : M A := fun h => Ok (f h) h.

Declare Scope io_scope.
Delimit Scope io_scope with io.
Notation "'let*' x := c1 'in' c2" := (bind c1 (fun x => c2))
  (at level 10, x pattern, c1 at level 100, c2 at level 200) : io_scope.
#[local] Open Scope io_scope.

(** Allocation of a fresh object. *)
Definition alloc (o : object) : M mixed :=
  fun h => Ok (VRef (length h)) (h ++ [o]).

(** [xs.slice()] *)
Definition slice (xs : mixed) : M mixed :=
  fun h => alloc (OArray (match xs with
                          | VRef l => match h !! l with
                                      | Some (OArray elems) => elems
                                      | _ => []
                                      end
                          | _ => []
                          end)) h.

(** [{ ...o }] *)
Definition spread (o : mixed) : M mixed :=
  fun h => alloc (ODictionary (own_enumerable h o)) h.

(** [a[i] = v] for a numeric index. *)
Definition set_index (a : mixed) (i : nat) (v : mixed) : M unit :=
  fun h =>
    match a with
    | VRef l =>
        match h !! l with
        | Some (OArray elems) => Ok tt (<[l := OArray (array_set elems i v)]> h)
        | Some (ODictionary entries) =>
            Ok tt (<[l := ODictionary (entries_set entries (index_key i) v)]> h)
        | _ => Ok tt h
        end
    | VUndefined | VNull => Throw "TypeError"
    | _ => Ok tt h
    end.

(** [a[k] = v] for a string key.  The combinators only ever write into
    the plain objects they have just created; on an array, a key that is an
    index up to its length is written, any other key is dropped. *)
Definition set (a : mixed) (k : string) (v : mixed) : M unit :=
  fun h =>
    match a with
    | VRef l =>
        match h !! l with
        | Some (OArray elems) =>
            match key_index (S (length elems)) k with
            | Some i => Ok tt (<[l := OArray (array_set elems i v)]> h)
            | None => Ok tt h
            end
        | Some (ODictionary entries) => Ok tt (<[l := ODictionary (entries_set entries k v)]> h)
        | _ => Ok tt h
        end
    | VUndefined | VNull => Throw "TypeError"
    | _ => Ok tt h
    end.

(** [for (let i = lo; i < lo + n; i++) body], threading the loop's
    variables as [s]. *)
Fixpoint for_range {St : Type} (lo n : nat) (body : nat -> St -> M St) (s : St) : M St :=
  match n with
  | O => ret s
  | S n' => let* s' := body lo s in for_range (S lo) n' body s'
  end.

(** ** Errors, validations and runtime types *)

(** [Validate]'s key argument is [string | number]. *)
Inductive Key :=
| KString (s : string)
| KNumber (i : nat).

(** [String(c)] *)
Definition String_of (c : Key) : string :=
  match c with
  | KString s => s
  | KNumber i => index_key i
  end.

(** An error node and a reporter use a [Decoder] only through its [name]. *)
Record Decoder := mkDecoder { decoder_name : string }.

Inductive VError := mkVError {
  value : mixed;
  key : string;
  type : Decoder;
  children : list VError
}.

Definition VErrors := list VError.

(** [Validation<A> = Left<VError, A> | A].  The source tells the two
    apart with [instanceof Left] and wraps nothing around a success; data
    values are never [Left] instances, so the union is disjoint and is
    written here with two constructors. *)
Inductive Validation :=
| Left (e : VError)
| Success (a : mixed).

Definition isLeft (v : Validation) : bool :=
  match v with Left _ => true | Success _ => false end.

Definition isRight (v : Validation) : bool := negb (isLeft v).

Definition fold {U : Type} (v : Validation) (l : VError -> U) (f : mixed -> U) : U :=
  match v with Left e => l e | Success a => f a end.

Definition chain (v : Validation) (f : mixed -> M Validation) : M Validation :=
  match v with Left e => ret (Left e) | Success a => f a end.

Definition Is := mixed -> heap -> bool.
Definition Validate := mixed -> Key -> Decoder -> M Validation.

(** [encode === identity] compares against the one exported [identity]
    function, so an encoder is either that function or some other one. *)
Inductive Encode :=
| identity
| encoder (f : mixed -> M mixed).

Definition run_encode (e : Encode) (a : mixed) : M mixed :=
  match e with
  | identity => ret a
  | encoder f => f a
  end.

Definition is_identity (e : Encode) : bool :=
  match e with identity => true | encoder _ => false end.

(** The [_tag] of a runtime type together with the fields its class adds
    ([props], [types], [type], [value], ...); [PlainType] is a bare
    [new Type(...)]. *)
Inductive Tag (T : Type) :=
| PlainType
| NullType | UndefinedType | AnyType | NeverType | StringType | NumberType
| BooleanType | AnyArrayType | AnyDictionaryType | ObjectType | FunctionType
| RefinementType (type : T) (predicate : mixed -> heap -> bool)
| LiteralType (value : mixed)
| KeyofType (keys : list string)
| ArrayType (type : T)
| InterfaceType (props : list (string * T))
| PartialType (props : list (string * T))
| DictionaryType (domain codomain : T)
| UnionType (types : list T)
| IntersectionType (types : list T)
| TupleType (types : list T)
| StrictType (props : list (string * T)).
Arguments PlainType {T}.
Arguments NullType {T}.
Arguments UndefinedType {T}.
Arguments AnyType {T}.
Arguments NeverType {T}.
Arguments StringType {T}.
Arguments NumberType {T}.
Arguments BooleanType {T}.
Arguments AnyArrayType {T}.
Arguments AnyDictionaryType {T}.
Arguments ObjectType {T}.
Arguments FunctionType {T}.
Arguments RefinementType {T} type predicate.
Arguments LiteralType {T} value.
Arguments KeyofType {T} keys.
Arguments ArrayType {T} type.
Arguments InterfaceType {T} props.
Arguments PartialType {T} props.
Arguments DictionaryType {T} domain codomain.
Arguments UnionType {T} types.
Arguments IntersectionType {T} types.
Arguments TupleType {T} types.
Arguments StrictType {T} props.

(** [class Type<A, O, I>] *)
Inductive RType := mkType {
  name : string;
  is_ : Is;
  validate : Validate;
  encode : Encode;
  _tag : Tag RType
}.

Definition Props := list (string * RType).

Definition asDecoder (t : RType) : Decoder := mkDecoder (name t).

(** [decode(i) = this.validate(i, '', this)] *)
Definition decode (t : RType) (i : mixed) : M Validation :=
  validate t i (KString "") (asDecoder t).

Definition failureError (value : mixed) (key : string) (type : Decoder) (children : VErrors)
  : VError := mkVError value key type children.

Definition failure (value : mixed) (key : string) (type : Decoder) (children : VErrors)
  : Validation := Left (mkVError value key type children).

Definition failures (value : mixed) (key : string) (type : Decoder) (errors : VErrors)
  : Validation := failure value key type errors.

Definition success (value : mixed) : Validation := Success value.

(** [pipe] *)
Definition pipe (this ab : RType) (oname : option string) : RType :=
  mkType
    (default ("pipe(" +:+ this.(name) +:+ ", " +:+ ab.(name) +:+ ")") oname)
    ab.(is_)
    (fun i c decoder =>
       let* validation := this.(validate) i c decoder in
       match validation with
       | Left e => ret (Left e)
       | Success a => ab.(validate) a c decoder
       end)
    (if is_identity this.(encode) && is_identity ab.(encode) then identity
     else encoder (fun b => let* a := run_encode ab.(encode) b in run_encode this.(encode) a))
    PlainType.

(** [getFunctionName]: [displayName || name || `<function${f.length}>`] *)
Definition getFunctionName (f : FunctionInfo) : string :=
  if negb (bool_decide (displayName f = "")) then displayName f
  else if negb (bool_decide (function_name f = "")) then function_name f
  else "<function" +:+ pretty (function_length f) +:+ ">".

(** What [getFunctionName] reads off a function value.  A built-in
    function has no [displayName]. *)
Definition function_info (h : heap) (f : mixed) : FunctionInfo :=
  match f with
  | VRef l => match h !! l with
              | Some (OFunction info) => info
              | _ => mkFunctionInfo "" "" 0
              end
  | VBuiltin (Constructor class) => mkFunctionInfo "" class 0
  | VBuiltin (Method _ method_name) => mkFunctionInfo "" method_name 0
  | _ => mkFunctionInfo "" "" 0
  end.

(** ** Basic types *)

(** The validator shared by the basic types:
    [(m, c, decoder) => (this.is(m) ? m : failure(m, String(c), decoder))] *)
Definition guard_validate (this_is : Is) : Validate :=
  fun m c decoder =>
    let* ok := reads (this_is m) in
    ret (if ok then success m else failure m (String_of c) decoder []).

Definition nullType : RType :=
  mkType "null" (fun m _ => strict_eq m VNull)
         (guard_validate (fun m _ => strict_eq m VNull)) identity NullType.

Definition undefinedType : RType :=
  mkType "undefined" (fun m _ => strict_eq m VUndefined)
         (guard_validate (fun m _ => strict_eq m VUndefined)) identity UndefinedType.

Definition any : RType :=
  mkType "any" (fun _ _ => true) (fun m _ _ => ret (success m)) identity AnyType.

Definition never : RType :=
  mkType "never" (fun _ _ => false)
         (fun m c decoder => ret (failure m (String_of c) decoder []))
         (encoder (fun _ => throw "cannot serialize never"))
         NeverType.

Definition string_ : RType :=
  mkType "string" (fun m h => bool_decide (typeof h m = "string"))
         (guard_validate (fun m h => bool_decide (typeof h m = "string"))) identity StringType.

Definition number : RType :=
  mkType "number" (fun m h => bool_decide (typeof h m = "number"))
         (guard_validate (fun m h => bool_decide (typeof h m = "number"))) identity NumberType.

Definition boolean : RType :=
  mkType "boolean" (fun m h => bool_decide (typeof h m = "boolean"))
         (guard_validate (fun m h => bool_decide (typeof h m = "boolean"))) identity BooleanType.

Definition arrayType : RType :=
  mkType "Array" (fun m h => Array_isArray h m)
         (guard_validate (fun m h => Array_isArray h m)) identity AnyArrayType.

(** [m !== null && typeof m === 'object'] *)
Definition Dictionary : RType :=
  mkType "Dictionary"
         (fun m h => negb (strict_eq m VNull) && bool_decide (typeof h m = "object"))
         (guard_validate
            (fun m h => negb (strict_eq m VNull) && bool_decide (typeof h m = "object")))
         identity AnyDictionaryType.

Definition object_ : RType :=
  mkType "object" Dictionary.(is_) Dictionary.(validate) identity ObjectType.

Definition Function : RType :=
  mkType "Function" (fun m h => bool_decide (typeof h m = "function"))
         (guard_validate (fun m h => bool_decide (typeof h m = "function"))) identity FunctionType.

(** ** Loops and small helpers *)

(** A [for] loop over the items of a list, threading the loop's variables. *)
Fixpoint for_each {A St : Type} (l : list A) (body : A -> St -> M St) (s : St) : M St :=
  match l with
  | [] => ret s
  | x :: l' => let* s' := body x s in for_each l' body s'
  end.

(** [xs.map(f)] with an effectful [f]. *)
Fixpoint mapM {A B : Type} (f : A -> M B) (l : list A) : M (list B) :=
  match l with
  | [] => ret []
  | x :: l' => let* y := f x in let* ys := mapM f l' in ret (y :: ys)
  end.

(** The items of a list paired with their positions. *)
Definition indexed {A : Type} (l : list A) : list (nat * A) := imap pair l.

(** [xs.join(sep)] *)
Fixpoint join (sep : string) (l : list string) : string :=
  match l with
  | [] => ""
  | [x] => x
  | x :: l' => x +:+ sep +:+ join sep l'
  end.

(** [o[k]] in an encoder, which may meet [null] or [undefined]. *)
Definition getM (o : mixed) (k : string) : M mixed :=
  match o with
  | VUndefined | VNull => throw "TypeError"
  | _ => reads (fun h => get h o k)
  end.

(** The key a value becomes when used as a property name: [String(v)].
    Literal values are strings, numbers or booleans; an object is given the
    key of a plain one. *)
Definition property_key (v : mixed) : string :=
  match v with
  | VUndefined => "undefined"
  | VNull => "null"
  | VBoolean b => if b then "true" else "false"
  | VNumber n => Number_toString n
  | VString s => s
  | VRef _ | VBuiltin _ => "[object Object]"
  end.

(** [errors.length ? failures(m, key, decoder, errors) : a] *)
Definition errors_or (errors : VErrors) (m : mixed) (k : string) (decoder : Decoder) (a : mixed)
  : Validation :=
  match errors with
  | [] => Success a
  | _ :: _ => failures m k decoder errors
  end.

(** ** Refinements *)

(** A predicate is a function object: it has a name and can be applied. *)
Record Predicate := mkPredicate {
  predicate_info : FunctionInfo;
  holds : mixed -> heap -> bool
}.

Definition refinement (t : RType) (predicate : Predicate) (oname : option string) : RType :=
  mkType
    (default ("(" +:+ t.(name) +:+ " | " +:+ getFunctionName (predicate_info predicate) +:+ ")")
             oname)
    (fun m h => t.(is_) m h && holds predicate m h)
    (fun i c decoder =>
       let* validation := t.(validate) i c decoder in
       match validation with
       | Left e => ret (Left e)
       | Success a =>
           let* ok := reads (holds predicate a) in
           ret (if ok then Success a else failure a (String_of c) decoder [])
       end)
    t.(encode)
    (RefinementType t (holds predicate)).

(** [n % 1 === 0] *)
Definition Integer : RType :=
  refinement number
    (mkPredicate (mkFunctionInfo "" "" 1)
       (fun n _ => match n with VNumber x => is_whole x | _ => false end))
    (Some "Integer").

(** ** Arrays *)

Definition array_step (t : RType) (xs : mixed) (i : nat) (st : mixed * VErrors)
  : M (mixed * VErrors) :=
  let '(a, errors) := st in
  let* x := reads (fun h => get_index h xs i) in
  let* validation := t.(validate) x (KNumber i) (asDecoder t) in
  match validation with
  | Left e => ret (a, errors ++ [e])
  | Success v =>
      if negb (strict_eq v x) then
        let* a' := (if strict_eq a v then slice xs else ret a) in
        let* _ := set_index a' i v in
        ret (a', errors)
      else ret (a, errors)
  end.

Definition array (t : RType) (oname : option string) : RType :=
  mkType
    (default ("Array<" +:+ t.(name) +:+ ">") oname)
    (fun m h =>
       arrayType.(is_) m h &&
       forallb (fun x => t.(is_) x h) (snd <$> own_enumerable h m))
    (fun m c decoder =>
       let* arrayValidation := arrayType.(validate) m c decoder in
       match arrayValidation with
       | Left e => ret (Left e)
       | Success xs =>
           let* len := reads (fun h => array_length h xs) in
           let* (a, errors) := for_range 0 len (array_step t xs) (xs, []) in
           ret (errors_or errors m (String_of c) decoder a)
       end)
    (if is_identity t.(encode) then identity
     else encoder (fun a =>
            let* isarr := reads (fun h => Array_isArray h a) in
            if isarr then
              let* elems := reads (fun h => snd <$> own_enumerable h a) in
              let* out := mapM (run_encode t.(encode)) elems in
              alloc (OArray out)
            else throw "TypeError"))
    (ArrayType t).

(** ** Interfaces *)

Definition getNameFromProps (props : Props) : string :=
  "{ " +:+ join ", " ((fun kt => fst kt +:+ ": " +:+ (snd kt).(name)) <$> props) +:+ " }".

Definition useIdentity (props : Props) : bool :=
  forallb (fun kt => is_identity (snd kt).(encode)) props.

Definition interface_step (o : mixed) (kt : string * RType) (st : mixed * VErrors)
  : M (mixed * VErrors) :=
  let '(a, errors) := st in
  let '(k, t) := kt in
  let* ok := reads (fun h => get h o k) in
  let* validation := t.(validate) ok (KString k) (asDecoder t) in
  match validation with
  | Left e => ret (a, errors ++ [e])
  | Success v =>
      if negb (strict_eq v ok) then
        let* a' := (if strict_eq a o then spread o else ret a) in
        let* _ := set a' k v in
        ret (a', errors)
      else ret (a, errors)
  end.

(** [type], exported also as [interface].  [props] lists the declared
    fields in [Object.keys] order. *)
Definition interface (props : Props) (oname : option string) : RType :=
  mkType
    (default (getNameFromProps props) oname)
    (fun m h =>
       if negb (Dictionary.(is_) m h) then false
       else forallb (fun kt => (snd kt).(is_) (get h m (fst kt)) h) props)
    (fun m c decoder =>
       let* dictionaryValidation := Dictionary.(validate) m c decoder in
       match dictionaryValidation with
       | Left e => ret (Left e)
       | Success o =>
           let* (a, errors) := for_each props (interface_step o) (o, []) in
           ret (errors_or errors m (String_of c) decoder a)
       end)
    (if useIdentity props then identity
     else encoder (fun a =>
            let* s := spread a in
            let* _ := for_each props
                        (fun kt (_ : unit) =>
                           let* ak := getM a (fst kt) in
                           let* v := run_encode (snd kt).(encode) ak in
                           set s (fst kt) v) tt in
            ret s))
    (InterfaceType props).

(** ** Unions *)

Fixpoint union_validate (types : list RType) (i : nat) (m : mixed) (c : Key)
    (decoder : Decoder) (errors : VErrors) : M Validation :=
  match types with
  | [] => ret (failures m (String_of c) decoder errors)
  | t :: rest =>
      let* validation := t.(validate) m (KNumber i) (asDecoder t) in
      match validation with
      | Left e => union_validate rest (S i) m c decoder (errors ++ [e])
      | Success _ => ret validation
      end
  end.

Fixpoint union_encode (types : list RType) (a : mixed) : M mixed :=
  match types with
  | [] => throw "TypeError"
  | [t] => run_encode t.(encode) a
  | t :: rest =>
      let* ok := reads (t.(is_) a) in
      if ok then run_encode t.(encode) a else union_encode rest a
  end.

Definition union (types : list RType) (oname : option string) : RType :=
  mkType
    (default ("(" +:+ join " | " (name <$> types) +:+ ")") oname)
    (fun m h => existsb (fun t => t.(is_) m h) types)
    (fun m c decoder => union_validate types 0 m c decoder [])
    (if forallb (fun t => is_identity t.(encode)) types then identity
     else encoder (union_encode types))
    (UnionType types).

(** ** Partials *)

Definition partial (props : Props) (oname : option string) : RType :=
  let partials : Props :=
    (fun kt => (fst kt, union [snd kt; undefinedType] None)) <$> props in
  let partial := interface partials None in
  mkType
    (default ("PartialType<" +:+ getNameFromProps props +:+ ">") oname)
    partial.(is_)
    partial.(validate)
    (if useIdentity props then identity
     else encoder (fun a =>
            let* s := alloc (ODictionary []) in
            let* _ := for_each props
                        (fun kt (_ : unit) =>
                           let* ak := getM a (fst kt) in
                           if negb (strict_eq ak VUndefined) then
                             let* v := run_encode (snd kt).(encode) ak in
                             set s (fst kt) v
                           else ret tt) tt in
            ret s))
    (PartialType props).

(** ** Intersections *)

Definition intersection_step (it : nat * RType) (st : mixed * VErrors) : M (mixed * VErrors) :=
  let '(a, errors) := st in
  let '(i, t) := it in
  let* validation := t.(validate) a (KNumber i) (asDecoder t) in
  match validation with
  | Left e => ret (a, errors ++ children e)
  | Success v => ret (v, errors)
  end.

Definition intersection (types : list RType) (oname : option string) : RType :=
  mkType
    (default ("(" +:+ join " & " (name <$> types) +:+ ")") oname)
    (fun m h => forallb (fun t => t.(is_) m h) types)
    (fun m c decoder =>
       let* (a, errors) := for_each (indexed types) intersection_step (m, []) in
       ret (errors_or errors m (String_of c) decoder a))
    (if forallb (fun t => is_identity t.(encode)) types then identity
     else encoder (fun a => for_each types (fun t s => run_encode t.(encode) s) a))
    (IntersectionType types).

(** ** Tuples *)

Definition tuple_step (as_ : mixed) (it : nat * RType) (st : mixed * VErrors)
  : M (mixed * VErrors) :=
  let '(t, errors) := st in
  let '(i, type) := it in
  let* a := reads (fun h => get_index h as_ i) in
  let* validation := type.(validate) a (KNumber i) (asDecoder type) in
  match validation with
  | Left e => ret (t, errors ++ [e])
  | Success v =>
      if negb (strict_eq v a) then
        let* t' := (if strict_eq t as_ then slice as_ else ret t) in
        let* _ := set_index t' i v in
        ret (t', errors)
      else ret (t, errors)
  end.

Definition tuple (types : list RType) (oname : option string) : RType :=
  let len := length types in
  mkType
    (default ("[" +:+ join ", " (name <$> types) +:+ "]") oname)
    (fun m h =>
       arrayType.(is_) m h && bool_decide (array_length h m = len) &&
       forallb (fun it => (snd it).(is_) (get_index h m (fst it)) h) (indexed types))
    (fun m c decoder =>
       let* arrayValidation := arrayType.(validate) m c (asDecoder arrayType) in
       match arrayValidation with
       | Left e => ret (Left e)
       | Success as_ =>
           let* (t, errors) := for_each (indexed types) (tuple_step as_) (as_, []) in
           let* excess := reads (fun h => if decide (len < array_length h as_)
                                          then [failureError (get_index h as_ len)
                                                  (index_key len) (asDecoder never) []]
                                          else []) in
           ret (errors_or (errors ++ excess) m (String_of c) decoder t)
       end)
    (if forallb (fun t => is_identity t.(encode)) types then identity
     else encoder (fun a =>
            let* out := mapM (fun it => let* ai := reads (fun h => get_index h a (fst it)) in
                                        run_encode (snd it).(encode) ai) (indexed types) in
            alloc (OArray out)))
    (TupleType types).

(** ** Strict interfaces *)

Definition strict_errors (props : Props) (h : heap) (o : mixed) : VErrors :=
  omap (fun key => if negb (hasOwnProperty props key)
                   then Some (failureError (get h o key) key (asDecoder never) [])
                   else None)
       (getOwnPropertyNames h o).

Definition strict (props : Props) (oname : option string) : RType :=
  let loose := interface props None in
  mkType
    (default ("StrictType<" +:+ getNameFromProps props +:+ ">") oname)
    (fun m h => loose.(is_) m h && forallb (hasOwnProperty props) (getOwnPropertyNames h m))
    (fun m c decoder =>
       let* looseValidation := loose.(validate) m c (asDecoder loose) in
       match looseValidation with
       | Left e => ret (Left e)
       | Success o =>
           let* errors := reads (fun h => strict_errors props h o) in
           ret (errors_or errors m "" decoder o)
       end)
    loose.(encode)
    (StrictType props).

(** ** Helper types of the test suite *)

Definition instanceof_Date (h : heap) (v : mixed) : bool :=
  match v with
  | VRef l => match h !! l with Some (ODate _) => true | _ => false end
  | _ => false
  end.

Definition DateFromNumber : RType :=
  mkType "DateFromNumber"
    (fun v h => instanceof_Date h v)
    (fun s c decoder =>
       let* v := number.(validate) s c (asDecoder number) in
       chain v (fun n =>
         match n with
         | VNumber x =>
             let* d := alloc (ODate (TimeClip x)) in
             ret (if isNaN (TimeClip x) then failure n (String_of c) decoder [] else success d)
         | _ => throw "TypeError"
         end))
    (encoder (fun a h =>
       match a with
       | VRef l => match h !! l with
                   | Some (ODate time) => Ok (VNumber time) h
                   | _ => Throw "TypeError"
                   end
       | _ => Throw "TypeError"
       end))
    PlainType.

(** ** Dictionaries *)

Definition dictionary_step (domain codomain : RType) (o a : mixed) (k : string)
    (st : VErrors * bool) : M (VErrors * bool) :=
  let '(errors, changed) := st in
  let* ok := reads (fun h => get h o k) in
  let* domainValidation := domain.(validate) (VString k) (KString k) (asDecoder domain) in
  let* codomainValidation := codomain.(validate) ok (KString k) (asDecoder codomain) in
  let '(errors, changed, k') :=
    match domainValidation with
    | Left e => (errors ++ [e], changed, VString k)
    | Success vk => (errors, changed || negb (strict_eq vk (VString k)), vk)
    end in
  match codomainValidation with
  | Left e => ret (errors ++ [e], changed)
  | Success vok =>
      let* _ := set a (property_key k') vok in
      ret (errors, changed || negb (strict_eq vok ok))
  end.

Definition dictionary (domain codomain : RType) (oname : option string) : RType :=
  mkType
    (default ("{ [K in " +:+ domain.(name) +:+ "]: " +:+ codomain.(name) +:+ " }") oname)
    (fun m h =>
       Dictionary.(is_) m h &&
       forallb (fun kv => domain.(is_) (VString (fst kv)) h && codomain.(is_) (snd kv) h)
               (own_enumerable h m))
    (fun m c decoder =>
       let* dictionaryValidation := Dictionary.(validate) m c decoder in
       match dictionaryValidation with
       | Left e => ret (Left e)
       | Success o =>
           let* a := alloc (ODictionary []) in
           let* keys := reads (fun h => fst <$> own_enumerable h o) in
           let* (errors, changed) :=
             for_each keys (dictionary_step domain codomain o a) ([], false) in
           ret (errors_or errors m (String_of c) decoder (if changed : bool then a else o))
       end)
    (if is_identity domain.(encode) && is_identity codomain.(encode) then identity
     else encoder (fun a =>
            let* s := alloc (ODictionary []) in
            let* entries := reads (fun h => own_enumerable h a) in
            let* _ := for_each entries
                        (fun kv (_ : unit) =>
                           let* k' := run_encode domain.(encode) (VString (fst kv)) in
                           let* v := run_encode codomain.(encode) (snd kv) in
                           set s (property_key k') v) tt in
            ret s))
    (DictionaryType domain codomain).

(** ** Discriminant lookup for tagged unions *)

Fixpoint isTagged (tag : string) (t : RType) {struct t} : bool :=
  match _tag t with
  | InterfaceType props | StrictType props => hasOwnProperty props tag
  | IntersectionType types => existsb (isTagged tag) types
  | UnionType types => forallb (isTagged tag) types
  | RefinementType t' _ => isTagged tag t'
  | _ => false
  end.


(** [.value] of the member's [tag] property: present on a literal type
    only. *)
Definition literal_value (t : RType) : mixed :=
  match _tag t with
  | LiteralType v => v
  | _ => VUndefined
  end.

(** [props[tag].value]: [props] is an object literal, so a tag it does not
    declare may still name a member of [Object.prototype], whose [value]
    is [undefined]; any other undeclared tag reads [undefined] and the
    [.value] on it throws ([None]). *)
Definition props_tag_value (tag : string) (props : list (string * RType)) : option mixed :=
  match assoc tag props with
  | Some t => Some (literal_value t)
  | None => if bool_decide (tag ∈ Object_prototype) then Some VUndefined else None
  end.

(** [getTagValue].  [None] is a [TypeError] (a property read on
    [undefined]); a type whose [_tag] the [switch] does not list falls
    through and yields [undefined].  The intersection case runs
    [findTagged]'s loop in place. *)
Fixpoint getTagValue (tag : string) (t : RType) {struct t} : option mixed :=
  match _tag t with
  | InterfaceType props | StrictType props => props_tag_value tag props
  | IntersectionType types =>
      (fix find (ts : list RType) : option mixed :=
         match ts with
         | [] => None
         | [t'] => getTagValue tag t'
         | t' :: (_ :: _) as rest => if isTagged tag t' then getTagValue tag t' else find rest
         end) types
  | UnionType types =>
      match types with
      | t' :: _ => getTagValue tag t'
      | [] => None
      end
  | RefinementType t' _ => getTagValue tag t'
  | _ => Some VUndefined
  end.

(** The two tables [taggedUnion] fills at construction. *)
Fixpoint tag_tables (tag : string) (types : list (nat * RType))
    (acc : gmap string nat * list (string * mixed))
  : option (gmap string nat * list (string * mixed)) :=
  match types with
  | [] => Some acc
  | (i, t) :: rest =>
      match getTagValue tag t with
      | Some v =>
          tag_tables tag rest
            (<[property_key v := i]> (fst acc), entries_set (snd acc) (property_key v) VNull)
      | None => None
      end
  end.

Section Host.

(** [JSON.stringify] belongs to the host.  [JSON_stringify h v] is the
    text a template literal shows for [JSON.stringify(v)] when [v] lives
    in the store [h]. *)
Variable JSON_stringify : heap -> mixed -> string.

(** [JSON.stringify] of a fresh array of strings. *)
Definition JSON_stringify_keys (keys : list string) : string :=
  JSON_stringify [OArray (VString <$> keys)] (VRef 0).

(** ** Literals and keyof *)

Definition literal (v : mixed) (oname : option string) : RType :=
  let this_is : Is := fun m _ => strict_eq m v in
  mkType
    (default (JSON_stringify [] v) oname)
    this_is
    (fun m c decoder =>
       let* ok := reads (this_is m) in
       ret (if ok then success v else failure m (String_of c) decoder []))
    identity
    (LiteralType v).

Definition keyof (keys : list (string * mixed)) (oname : option string) : RType :=
  let this_is : Is := fun m h =>
    string_.(is_) m h &&
    match m with VString s => hasOwnProperty keys s | _ => false end in
  mkType
    (default ("(keyof " +:+ JSON_stringify_keys (fst <$> keys) +:+ ")") oname)
    this_is
    (guard_validate this_is)
    identity
    (KeyofType (fst <$> keys)).

(** ** Tagged unions *)

(** [types[tagValue2Index[tagValue]]] *)
Definition tagged_member (tagValue2Index : gmap string nat) (types : list RType)
    (tagValue : mixed) : option RType :=
  match tagValue with
  | VString s => i ← tagValue2Index !! s; types !! i
  | _ => None
  end.

(** [None]: the construction itself throws (a member without the tag). *)
Definition taggedUnion (tag : string) (types : list RType) (oname : option string)
  : option RType :=
  match tag_tables tag (indexed types) (∅, []) with
  | None => None
  | Some (tagValue2Index, tagValues) =>
      let TagValue := keyof tagValues None in
      Some (mkType
        (default ("(" +:+ join " | " (name <$> types) +:+ ")") oname)
        (fun v h =>
           if negb (Dictionary.(is_) v h) then false
           else
             let tagValue := get h v tag in
             TagValue.(is_) tagValue h &&
             match tagged_member tagValue2Index types tagValue with
             | Some t => t.(is_) v h
             | None => false
             end)
        (fun s c decoder =>
           let* dictionaryValidation := Dictionary.(validate) s c decoder in
           match dictionaryValidation with
           | Left e => ret (Left e)
           | Success d =>
               let* dtag := reads (fun h => get h d tag) in
               let* tagValueValidation :=
                 TagValue.(validate) dtag (KString tag) (asDecoder TagValue) in
               match tagValueValidation with
               | Left e =>
                   let* dtag' := reads (fun h => get h d tag) in
                   ret (failure dtag' " " decoder [e])
               | Success tagValue =>
                   match tagged_member tagValue2Index types tagValue with
                   | Some t => t.(validate) d c (asDecoder t)
                   | None => throw "TypeError"
                   end
               end
           end)
        (if forallb (fun t => is_identity t.(encode)) types then identity
         else encoder (fun a =>
                let* atag := getM a tag in
                match tagged_member tagValue2Index types (VString (property_key atag)) with
                | Some t => run_encode t.(encode) a
                | None => throw "TypeError"
                end))
        (UnionType types))
  end.

(** ** The path reporter *)

(** An entry of a [Context], and a flattened [ValidationError]. *)
Record ContextEntry := mkContextEntry { entry_key : string; entry_type : Decoder }.
Definition Context := list ContextEntry.
Record ValidationError := mkValidationError { error_value : mixed; context : Context }.

(** [typeof v === 'function' ? getFunctionName(v) : JSON.stringify(v)] *)
Definition stringify (h : heap) (v : mixed) : string :=
  if bool_decide (typeof h v = "function") then getFunctionName (function_info h v)
  else JSON_stringify h v.

Definition getContextPath (context : Context) : string :=
  join "/" ((fun e => entry_key e +:+ ": " +:+ decoder_name (entry_type e)) <$> context).

Definition getMessage (h : heap) (v : mixed) (context : Context) : string :=
  "Invalid value " +:+ stringify h v +:+ " supplied to " +:+ getContextPath context.

Definition report_failure (h : heap) (es : list ValidationError) : list string :=
  (fun e => getMessage h (error_value e) (context e)) <$> es.

Definition report_success : list string := ["No errors!"].

Fixpoint convertError (x : VError) : list ValidationError :=
  match children x with
  | [] => [mkValidationError (value x) [mkContextEntry (key x) (type x)]]
  | _ :: _ =>
      (fix chain_children (cs : list VError) : list ValidationError :=
         match cs with
         | [] => []
         | child :: cs' =>
             ((fun error =>
                 mkValidationError (error_value error)
                   (mkContextEntry (key x) (type x) :: context error))
                <$> convertError child) ++ chain_children cs'
         end) (children x)
  end.

(** [PathReporter.report]:
    [validation.fold(compose(failure, convertError), success)].  The
    receiver of [fold] is the validation itself: a [Left] has the method,
    a bare success value has not, and the call throws ([None]). *)
Definition PathReporter_report (h : heap) (validation : Validation)
  : option (list string) :=
  match validation with
  | Left e => Some (report_failure h (convertError e))
  | Success _ => None
  end.

End Host.

(** * Vocabulary of the statements *)

(** A predicate that rejects every value. *)
Definition reject_all : Predicate :=
  mkPredicate (mkFunctionInfo "" "rejectAll" 1) (fun _ _ => false).

(** [members_fail m i types h errors h']: starting in store [h], the
    members [types], tried in order at branch indices [i], [i+1], ..., all
    fail on [m]; [errors] are their error nodes in member order and [h'] is
    the store they leave. *)
Inductive members_fail (m : mixed) : nat -> list RType -> heap -> VErrors -> heap -> Prop :=
| members_fail_nil i h : members_fail m i [] h [] h
| members_fail_cons i t types h e h' errors h'' :
    validate t m (KNumber i) (asDecoder t) h = Ok (Left e) h' ->
    members_fail m (S i) types h' errors h'' ->
    members_fail m i (t :: types) h (e :: errors) h''.

(** A member whose validator throws: it must never be reached. *)
Definition throwing : RType :=
  mkType "throwing" (fun _ _ => false) (fun _ _ _ => throw "reached") identity PlainType.

(** The leaves of an error tree, left to right, each with its raw value
    and the [(key, descriptor name)] pairs from the root down to it.  A
    leaf is a node without children. *)
Abbreviation Path := (list (string * string)).

Fixpoint leaf_paths (x : VError) : list (mixed * Path) :=
  match children x with
  | [] => [(value x, [(key x, decoder_name (type x))])]
  | _ :: _ =>
      List.map (fun leaf => (fst leaf, (key x, decoder_name (type x)) :: snd leaf))
               (flat_map leaf_paths (children x))
  end.

Fixpoint leaf_count (x : VError) : nat :=
  match children x with
  | [] => 1
  | _ :: _ => list_sum (List.map leaf_count (children x))
  end.

(** The name a function goes by: the display name it was given, else its
    own name, else, for an anonymous function, a placeholder showing its
    number of parameters. *)
Definition function_label (display own : string) (arity : nat) : string :=
  match display, own with
  | String _ _, _ => display
  | EmptyString, String _ _ => own
  | EmptyString, EmptyString => "<function" +:+ pretty arity +:+ ">"
  end.

(** The rendering of a raw value in a message: a function by its name,
    anything else through [JSON.stringify]. *)
Definition repr (JSON_stringify : heap -> mixed -> string) (h : heap) (v : mixed) : string :=
  match v with
  | VRef l =>
      match h !! l with
      | Some (OFunction (mkFunctionInfo display own arity)) => function_label display own arity
      | _ => JSON_stringify h v
      end
  | VBuiltin (Constructor class) => function_label "" class 0
  | VBuiltin (Method _ method_name) => function_label "" method_name 0
  | VBuiltin (Prototype class) =>
      if bool_decide (class = "Function") then function_label "" "" 0
      else JSON_stringify h v
  | _ => JSON_stringify h v
  end.

(** A path as text: its [key: name] pairs from the root down, separated by
    slashes. *)
Fixpoint path_text (path : Path) : string :=
  match path with
  | [] => ""
  | [(k, n)] => k +:+ ": " +:+ n
  | (k, n) :: rest => k +:+ ": " +:+ n +:+ "/" +:+ path_text rest
  end.

Definition leaf_message (JSON_stringify : heap -> mixed -> string) (h : heap)
    (leaf : mixed * Path) : string :=
  "Invalid value " +:+ repr JSON_stringify h (fst leaf) +:+ " supplied to " +:+
  path_text (snd leaf).

(** A leaf as the reporter's flattened error. *)
Definition flat_error (leaf : mixed * Path) : ValidationError :=
  mkValidationError (fst leaf)
    ((fun kn => mkContextEntry (fst kn) (mkDecoder (snd kn))) <$> snd leaf).



(** [e] has a child bound to [never] at index [i]. *)
Definition excess_error_at (e : VError) (i : nat) : Prop :=
  exists child, child ∈ children e /\ key child = index_key i /\ type child = asDecoder never.

(** The reading of the tuple rule under which each index past the declared
    arity gets an error of its own. *)
Definition tuple_rejects_every_excess_index (types : list RType) (m : mixed) (h : heap)
  : Prop :=
  forall c decoder oname,
    Array_isArray h m = true ->
    length types < array_length h m ->
    exists e h',
      validate (tuple types oname) m c decoder h = Ok (Left e) h' /\
      forall i, length types <= i < array_length h m -> excess_error_at e i.

(** [positions as_ i types t h t' errors h']: the members [types], run in
    order on the elements of the array [as_] at positions [i], [i+1], ...,
    starting with the result array [t] in store [h], leave the result array
    [t'], the store [h'] and their error nodes [errors], in position order.
    A member that returns its element as it is leaves the result array
    alone; one that returns another value has it written at its position
    into a copy of the input, which is made at the first such write. *)
Inductive positions (as_ : mixed)
  : nat -> list RType -> mixed -> heap -> mixed -> VErrors -> heap -> Prop :=
| positions_nil i t h : positions as_ i [] t h t [] h
| positions_fail i type types t h e h1 t' errors h' :
    validate type (get_index h as_ i) (KNumber i) (asDecoder type) h = Ok (Left e) h1 ->
    positions as_ (S i) types t h1 t' errors h' ->
    positions as_ i (type :: types) t h t' (e :: errors) h'
| positions_same i type types t h v h1 t' errors h' :
    validate type (get_index h as_ i) (KNumber i) (asDecoder type) h = Ok (Success v) h1 ->
    strict_eq v (get_index h as_ i) = true ->
    positions as_ (S i) types t h1 t' errors h' ->
    positions as_ i (type :: types) t h t' errors h'
| positions_write i type types t h v h1 t1 h2 h3 t' errors h' :
    validate type (get_index h as_ i) (KNumber i) (asDecoder type) h = Ok (Success v) h1 ->
    strict_eq v (get_index h as_ i) = false ->
    (if strict_eq t as_ then slice as_ else ret t) h1 = Ok t1 h2 ->
    set_index t1 i v h2 = Ok tt h3 ->
    positions as_ (S i) types t1 h3 t' errors h' ->
    positions as_ i (type :: types) t h t' errors h'.



(** A stand-in for [JSON.stringify] on the ground examples. *)
Definition sample_stringify (h : heap) (v : mixed) : string := property_key v.

(** [taggedUnion("kind", [A, B])] with [A = { kind: "a" }] and
    [B = { kind: "b" }]. *)
Definition kindA : RType :=
  interface [("kind", literal sample_stringify (VString "a") None)] None.
Definition kindB : RType :=
  interface [("kind", literal sample_stringify (VString "b") None)] None.
Definition kindAB : RType :=
  default never (taggedUnion sample_stringify "kind" [kindA; kindB] None).




(** [narrowing m i types a h a' errors h']: the members [types], run in
    order at branch indices [i], [i+1], ... on the value threaded from [a],
    leave the value [a'], the store [h'] and the spliced list [errors]: the
    children of each failing member's error node, in member order. *)
Inductive narrowing : nat -> list RType -> mixed -> heap -> mixed -> VErrors -> heap -> Prop :=
| narrowing_nil i a h : narrowing i [] a h a [] h
| narrowing_fail i t types a h e h' a' errors h'' :
    validate t a (KNumber i) (asDecoder t) h = Ok (Left e) h' ->
    narrowing (S i) types a h' a' errors h'' ->
    narrowing i (t :: types) a h a' (children e ++ errors) h''
| narrowing_pass i t types a h v h' a' errors h'' :
    validate t a (KNumber i) (asDecoder t) h = Ok (Success v) h' ->
    narrowing (S i) types v h' a' errors h'' ->
    narrowing i (t :: types) a h a' errors h''.

(** ** The throwing reporter *)

Definition newline : string := String (Ascii.ascii_of_nat 10) "".

(** [ThrowReporter.report]: on a [Left], throw the path reporter's
    messages joined by newlines; otherwise return. *)
Definition ThrowReporter_report (JSON_stringify : heap -> mixed -> string)
    (validation : Validation) : M unit :=
  fun h =>
    if isLeft validation then
      match PathReporter_report JSON_stringify h validation with
      | Some messages => Throw (join newline messages)
      | None => Throw "TypeError"
      end
    else Ok tt h.

(** ** Further vocabulary *)

(** A type whose validator only ever adds objects to the store: whatever
    was in the store before a call is still there, unchanged, after it. *)
Definition store_monotone (t : RType) : Prop :=
  forall m c decoder h r h', validate t m c decoder h = Ok r h' -> h `prefix_of` h'.

(** The same for an encoder. *)
Definition encode_monotone (e : Encode) : Prop :=
  forall a h b h', run_encode e a h = Ok b h' -> h `prefix_of` h'.

(** The error nodes among a list of validations, in order. *)
Definition lefts (vs : list Validation) : VErrors :=
  omap (fun v => match v with Left e => Some e | Success _ => None end) vs.





(** * Properties *)

(** ** Working with the monad *)

Lemma bind_Ok {A B} (m : M A) (f : A -> M B) h a h' :
  m h = Ok a h' -> bind m f h = f a h'.
Proof. unfold bind. by intros ->. Qed.

Lemma bind_Throw {A B} (m : M A) (f : A -> M B) h msg :
  m h = Throw msg -> bind m f h = Throw msg.
Proof. unfold bind. by intros ->. Qed.

Lemma bind_inv_Ok {A B} (m : M A) (f : A -> M B) h b h'' :
  bind m f h = Ok b h'' -> exists a h', m h = Ok a h' /\ f a h' = Ok b h''.
Proof. unfold bind. destruct (m h) as [a h'|]; [eauto | done]. Qed.

Lemma bind_reads {A B} (g : heap -> A) (f : A -> M B) h :
  bind (reads g) f h = f (g h) h.
Proof. done. Qed.

Lemma bind_ret {A B} (a : A) (f : A -> M B) h : bind (ret a) f h = f a h.
Proof. done. Qed.

Lemma bind_assoc {A B C} (m : M A) (f : A -> M B) (g : B -> M C) h :
  bind (bind m f) g h = bind m (fun a => bind (f a) g) h.
Proof. unfold bind. by destruct (m h). Qed.


Lemma strict_eq_false a b : a <> b -> strict_eq a b = false.
Proof.
  unfold strict_eq. intros H.
  destruct a as [| | |[]| | |]; first [reflexivity | by apply bool_decide_eq_false_2].
Qed.

Lemma strict_eq_refl a : a <> VNumber NaN -> strict_eq a a = true.
Proof.
  unfold strict_eq. intros H.
  destruct a as [| | |[]| | |]; first [done | by apply bool_decide_eq_true_2].
Qed.

Lemma strict_eq_irrefl a : strict_eq a a = false -> a = VNumber NaN.
Proof.
  intros H. destruct (decide (a = VNumber NaN)) as [|Hne]; [done|].
  by rewrite (strict_eq_refl a Hne) in H.
Qed.

Lemma errors_or_nil m k decoder a : errors_or [] m k decoder a = Success a.
Proof. done. Qed.

Lemma errors_or_cons errors m k decoder a :
  errors <> [] -> errors_or errors m k decoder a = Left (mkVError m k decoder errors).
Proof. by destruct errors. Qed.


Lemma guard_validate_pass (g : Is) m c decoder h :
  g m h = true -> guard_validate g m c decoder h = Ok (Success m) h.
Proof. intros Hg. unfold guard_validate. by rewrite bind_reads, Hg. Qed.

Lemma guard_validate_reject (g : Is) m c decoder h :
  g m h = false ->
  guard_validate g m c decoder h = Ok (Left (mkVError m (String_of c) decoder [])) h.
Proof. intros Hg. unfold guard_validate. by rewrite bind_reads, Hg. Qed.

Lemma arrayType_validate_array h m c decoder :
  Array_isArray h m = true -> validate arrayType m c decoder h = Ok (Success m) h.
Proof. intros Harr. by apply guard_validate_pass. Qed.

Lemma Dictionary_validate_container h m c decoder :
  is_ Dictionary m h = true -> validate Dictionary m c decoder h = Ok (Success m) h.
Proof. intros Hd. by apply guard_validate_pass. Qed.

(** ** Refinement *)

(** C8.  When the base type validates [i] to [w] and the predicate rejects
    [w], the refinement fails with a leaf error whose recorded value is the
    validated value [w], at the caller's key and decoder. *)
Theorem refinement_error_records_validated_value
    (t : RType) (predicate : Predicate) (oname : option string)
    (i : mixed) (c : Key) (decoder : Decoder) (h h' : heap) (w : mixed) :
  validate t i c decoder h = Ok (Success w) h' ->
  holds predicate w h' = false ->
  exists e,
    validate (refinement t predicate oname) i c decoder h = Ok (Left e) h' /\
    value e = w /\ key e = String_of c /\ type e = decoder /\ children e = [].
Proof.
  intros Hbase Hpred.
  exists (mkVError w (String_of c) decoder []).
  split; [|done].
  cbn [refinement validate].
  rewrite (bind_Ok _ _ _ _ _ Hbase), bind_reads, Hpred. done.
Qed.

Lemma refinement_error_records_validated_value_witness :
  exists e,
    validate (refinement DateFromNumber reject_all None) (VNumber 1) (KString "")
             (mkDecoder "T") [] = Ok (Left e) [ODate 1] /\
    value e = VRef 0 /\ key e = "" /\ type e = mkDecoder "T" /\ children e = [].
Proof.
  apply (refinement_error_records_validated_value DateFromNumber reject_all None
           (VNumber 1) (KString "") (mkDecoder "T") [] [ODate 1] (VRef 0));
    reflexivity.
Defined.

(** ** Union *)

Lemma union_validate_all_fail types : forall i m c decoder acc h errors h',
  members_fail m i types h errors h' ->
  union_validate types i m c decoder acc h
  = Ok (Left (mkVError m (String_of c) decoder (acc ++ errors))) h'.
Proof.
  induction types as [|t types IH]; intros i m c decoder acc h errors h' Hfail;
    inversion Hfail as [|? ? ? ? e h0 es ? Hv Hrest]; subst; cbn [union_validate].
  - by rewrite app_nil_r.
  - rewrite (bind_Ok _ _ _ _ _ Hv). rewrite (IH _ _ _ _ _ _ _ _ Hrest).
    by rewrite <- app_assoc.
Qed.

Lemma union_validate_first_success pre : forall i m c decoder acc h errors h1 t post v h2,
  members_fail m i pre h errors h1 ->
  validate t m (KNumber (i + length pre)) (asDecoder t) h1 = Ok (Success v) h2 ->
  union_validate (pre ++ t :: post) i m c decoder acc h = Ok (Success v) h2.
Proof.
  induction pre as [|p pre IH]; intros i m c decoder acc h errors h1 t post v h2 Hfail Hok;
    inversion Hfail as [|? ? ? ? e h0 es ? Hv Hrest]; subst; cbn [union_validate app].
  - rewrite Nat.add_0_r in Hok. by rewrite (bind_Ok _ _ _ _ _ Hok).
  - rewrite (bind_Ok _ _ _ _ _ Hv).
    apply (IH _ _ _ _ _ _ _ _ _ _ _ _ Hrest).
    cbn [length] in Hok. by replace (S i + length pre) with (i + S (length pre)) by lia.
Qed.

(** C2.  The members of a union are tried in declaration order.  If the
    members [pre] all fail and the next member [t] succeeds with [v], the
    union returns [v] in the store [t] left, whatever members [post]
    follow; if every member fails, the union returns one error node for the
    input, at the caller's key and decoder, whose children are the members'
    error nodes in member order. *)
Theorem union_validate_in_order
    (pre : list RType) (oname : option string) (m : mixed) (c : Key) (decoder : Decoder)
    (h h1 : heap) (errors : VErrors) :
  members_fail m 0 pre h errors h1 ->
  (forall t post v h2,
     validate t m (KNumber (length pre)) (asDecoder t) h1 = Ok (Success v) h2 ->
     validate (union (pre ++ t :: post) oname) m c decoder h = Ok (Success v) h2) /\
  validate (union pre oname) m c decoder h
  = Ok (Left (mkVError m (String_of c) decoder errors)) h1.
Proof.
  intros Hfail. split.
  - intros t post v h2 Hok. cbn [union validate].
    by apply (union_validate_first_success pre 0 m c decoder [] h errors h1).
  - cbn [union validate].
    by rewrite (union_validate_all_fail pre 0 m c decoder [] h errors h1 Hfail).
Qed.

Lemma union_validate_in_order_witness :
  (forall t post v h2,
     validate t (VNumber 5) (KNumber 2) (asDecoder t) [] = Ok (Success v) h2 ->
     validate (union ([string_; boolean] ++ t :: post) None) (VNumber 5) (KString "")
              (mkDecoder "U") [] = Ok (Success v) h2) /\
  validate (union [string_; boolean] None) (VNumber 5) (KString "") (mkDecoder "U") []
  = Ok (Left (mkVError (VNumber 5) "" (mkDecoder "U")
                [mkVError (VNumber 5) "0" (mkDecoder "string") [];
                 mkVError (VNumber 5) "1" (mkDecoder "boolean") []])) [].
Proof.
  apply (union_validate_in_order [string_; boolean] None (VNumber 5) (KString "")
           (mkDecoder "U") [] []).
  eapply members_fail_cons; [reflexivity|].
  eapply members_fail_cons; [reflexivity|].
  apply members_fail_nil.
Defined.

(** ** The path reporter *)

(** Induction on error trees, with the hypothesis for every child. *)
Lemma VError_forall_ind (P : VError -> Prop) :
  (forall v k t cs, Forall P cs -> P (mkVError v k t cs)) ->
  forall e, P e.
Proof.
  intros step. fix IH 1. intros [v k t cs]. apply step.
  induction cs as [|c cs IHcs]; constructor; [apply IH | exact IHcs].
Qed.

Lemma getFunctionName_label display own arity :
  getFunctionName (mkFunctionInfo display own arity) = function_label display own arity.
Proof. by destruct display, own. Qed.

Lemma stringify_repr J h v : stringify J h v = repr J h v.
Proof.
  unfold stringify, repr. destruct v as [| | | | |l|[class|class|class method_name]]; try done.
  - cbn [typeof function_info]. destruct (h !! l) as [[| | |[display own arity]]|]; try done.
    rewrite bool_decide_eq_true_2 by done. apply getFunctionName_label.
  - cbn [typeof function_info]. destruct (bool_decide (class = "Function")) eqn:Hc.
    + by rewrite bool_decide_eq_true_2.
    + by rewrite bool_decide_eq_false_2.
  - apply getFunctionName_label.
  - apply getFunctionName_label.
Qed.

Lemma append_assoc (s1 s2 s3 : string) : (s1 +:+ s2) +:+ s3 = s1 +:+ s2 +:+ s3.
Proof.
  induction s1 as [|a s1 IH]; [done|].
  change (String a ((s1 +:+ s2) +:+ s3) = String a (s1 +:+ s2 +:+ s3)). by rewrite IH.
Qed.

Lemma join_path_text path :
  join "/" (List.map (fun kn => fst kn +:+ ": " +:+ snd kn) path) = path_text path.
Proof.
  induction path as [|[k n] path IH]; [done|].
  destruct path as [|[k' n'] path]; [done|].
  change (path_text ((k, n) :: (k', n') :: path))
    with (k +:+ ": " +:+ n +:+ "/" +:+ path_text ((k', n') :: path)).
  rewrite <- IH. cbn [List.map join fst snd]. by rewrite !append_assoc.
Qed.

Lemma convertError_children v k t c cs :
  convertError (mkVError v k t (c :: cs))
  = flat_map (fun child =>
                (fun error => mkValidationError (error_value error)
                                (mkContextEntry k t :: context error))
                  <$> convertError child) (c :: cs).
Proof.
  cbn [convertError children key type flat_map]. f_equal.
Qed.

Lemma leaf_paths_children v k t c cs :
  leaf_paths (mkVError v k t (c :: cs))
  = List.map (fun leaf => (fst leaf, (k, decoder_name t) :: snd leaf))
             (flat_map leaf_paths (c :: cs)).
Proof. done. Qed.

Lemma leaf_count_children v k t c cs :
  leaf_count (mkVError v k t (c :: cs)) = list_sum (List.map leaf_count (c :: cs)).
Proof. done. Qed.

Lemma convertError_leaf_paths e : convertError e = flat_error <$> leaf_paths e.
Proof.
  induction e as [v k [n] cs IH] using VError_forall_ind.
  destruct cs as [|c cs]; [done|].
  rewrite convertError_children, leaf_paths_children.
  revert IH. generalize (c :: cs). clear c cs. intros cs IH.
  induction IH as [|c cs Hc _ IHcs]; [done|].
  cbn [flat_map]. rewrite List.map_app, fmap_app, IHcs. f_equal.
  rewrite Hc. clear.
  induction (leaf_paths c) as [|[w p] ls IHls]; [done|].
  cbn in IHls |- *. by rewrite IHls.
Qed.

Lemma getMessage_flat_error J h leaf :
  getMessage J h (error_value (flat_error leaf)) (context (flat_error leaf))
  = leaf_message J h leaf.
Proof.
  destruct leaf as [v p]. unfold getMessage, leaf_message, getContextPath.
  cbn [flat_error error_value context fst snd]. rewrite stringify_repr.
  do 4 f_equal. rewrite <- join_path_text. f_equal. by rewrite <- list_fmap_compose.
Qed.

Lemma length_leaf_paths e : length (leaf_paths e) = leaf_count e.
Proof.
  induction e as [v k t cs IH] using VError_forall_ind.
  destruct cs as [|c cs]; [done|].
  rewrite leaf_paths_children, leaf_count_children, length_map.
  revert IH. generalize (c :: cs). clear c cs. intros cs IH.
  induction IH as [|c cs Hc _ IHcs]; [done|].
  cbn [flat_map List.map]. rewrite length_app.
  unfold list_sum in *. cbn [fold_right]. lia.
Qed.

(** C9.  On a failure, the path reporter returns one message per leaf of
    the error tree, in left-to-right leaf order; the message of a leaf is
    ["Invalid value <repr> supplied to <path>"], with [<repr>] the rendering
    of the leaf's raw value (a function by the name it goes by, anything
    else through [JSON.stringify]) and [<path>] the ["key: name"] pairs
    from the root to the leaf separated by ["/"].  A tree with [k] leaves
    gives [k] messages. *)
Theorem PathReporter_one_message_per_leaf
    (JSON_stringify : heap -> mixed -> string) (h : heap) (e : VError) :
  PathReporter_report JSON_stringify h (Left e)
  = Some (leaf_message JSON_stringify h <$> leaf_paths e) /\
  length (leaf_message JSON_stringify h <$> leaf_paths e) = leaf_count e.
Proof.
  split.
  - cbn [PathReporter_report]. f_equal. unfold report_failure.
    rewrite convertError_leaf_paths, <- list_fmap_compose.
    apply list_fmap_ext. intros _ leaf _. apply getMessage_flat_error.
  - rewrite length_fmap. apply length_leaf_paths.
Qed.

Lemma PathReporter_one_message_per_leaf_witness :
  PathReporter_report sample_stringify
    [OFunction (mkFunctionInfo "" "parse" 1); OFunction (mkFunctionInfo "" "" 2)]
    (Left (mkVError VNull "" (mkDecoder "T")
             [mkVError (VRef 0) "a" (mkDecoder "string") [];
              mkVError VNull "b" (mkDecoder "{ c: number, d: string }")
                [mkVError (VRef 1) "c" (mkDecoder "number") [];
                 mkVError (VBuiltin (Method "Object" "toString")) "d"
                   (mkDecoder "string") []];
              mkVError (VNumber (Fraction false 1 5)) "e" (mkDecoder "string") []]))
  = Some ["Invalid value parse supplied to : T/a: string";
          "Invalid value <function2> supplied to : T/b: { c: number, d: string }/c: number";
          "Invalid value toString supplied to : T/b: { c: number, d: string }/d: string";
          "Invalid value 1.5 supplied to : T/e: string"] /\
  length ["Invalid value parse supplied to : T/a: string";
          "Invalid value <function2> supplied to : T/b: { c: number, d: string }/c: number";
          "Invalid value toString supplied to : T/b: { c: number, d: string }/d: string";
          "Invalid value 1.5 supplied to : T/e: string"] = 4.
Proof.
  exact (PathReporter_one_message_per_leaf sample_stringify
           [OFunction (mkFunctionInfo "" "parse" 1); OFunction (mkFunctionInfo "" "" 2)]
           (mkVError VNull "" (mkDecoder "T")
              [mkVError (VRef 0) "a" (mkDecoder "string") [];
               mkVError VNull "b" (mkDecoder "{ c: number, d: string }")
                 [mkVError (VRef 1) "c" (mkDecoder "number") [];
                  mkVError (VBuiltin (Method "Object" "toString")) "d"
                    (mkDecoder "string") []];
               mkVError (VNumber (Fraction false 1 5)) "e" (mkDecoder "string") []])).
Defined.

(** ** Strict interfaces *)




(** ** Tuples *)

Lemma positions_loop as_ i types t h t' errors h' :
  positions as_ i types t h t' errors h' ->
  forall acc,
    for_each (imap (fun k => pair (i + k)) types) (tuple_step as_) (t, acc) h
    = Ok (t', acc ++ errors) h'.
Proof.
  induction 1 as [i t h
                 |i type types t h e h1 t' errors h' Hv _ IH
                 |i type types t h v h1 t' errors h' Hv Hsame _ IH
                 |i type types t h v h1 t1 h2 h3 t' errors h' Hv Hdiff Hcopy Hset _ IH];
    intros acc.
  - by rewrite app_nil_r.
  - cbn [imap for_each]. rewrite Nat.add_0_r.
    erewrite bind_Ok; last first.
    { unfold tuple_step. rewrite bind_reads. erewrite bind_Ok by exact Hv. reflexivity. }
    rewrite (imap_ext _ (fun k => pair (S i + k)) types)
      by (intros k x _; cbn; f_equal; lia).
    etrans; [exact (IH (acc ++ [e]))|]. by rewrite <- app_assoc.
  - cbn [imap for_each]. rewrite Nat.add_0_r.
    erewrite bind_Ok; last first.
    { unfold tuple_step. rewrite bind_reads. erewrite bind_Ok by exact Hv.
      cbv beta iota. rewrite Hsame. reflexivity. }
    rewrite (imap_ext _ (fun k => pair (S i + k)) types)
      by (intros k x _; cbn; f_equal; lia).
    exact (IH acc).
  - cbn [imap for_each]. rewrite Nat.add_0_r.
    erewrite bind_Ok; last first.
    { unfold tuple_step. rewrite bind_reads. erewrite bind_Ok by exact Hv.
      cbv beta iota. rewrite Hdiff. cbn [negb]. erewrite bind_Ok by exact Hcopy.
      erewrite bind_Ok by exact Hset. reflexivity. }
    rewrite (imap_ext _ (fun k => pair (S i + k)) types)
      by (intros k x _; cbn; f_equal; lia).
    exact (IH acc).
Qed.

Lemma positions_errors as_ i types t h t' errors h' :
  positions as_ i types t h t' errors h' -> length errors <= length types.
Proof. induction 1; cbn [length]; lia. Qed.

(** C4, as the code has it.  When the array is longer than the tuple's
    arity [n], validation fails, and the error node's children are the
    error nodes of the declared positions that fail, in position order (at
    most [n] of them), followed by exactly one excess error: a leaf bound
    to [never] at key [n], carrying the element at index [n].  Later
    indices add nothing. *)
Theorem tuple_rejects_first_excess_index
    (types : list RType) (oname : option string) (l : loc) (c : Key) (decoder : Decoder)
    (h h' : heap) (t : mixed) (errors : VErrors) :
  Array_isArray h (VRef l) = true ->
  positions (VRef l) 0 types (VRef l) h t errors h' ->
  array_length h' (VRef l) = array_length h (VRef l) ->
  length types < array_length h (VRef l) ->
  validate (tuple types oname) (VRef l) c decoder h
  = Ok (Left (mkVError (VRef l) (String_of c) decoder
                (errors ++ [mkVError (get_index h' (VRef l) (length types))
                              (index_key (length types)) (asDecoder never) []]))) h' /\
  length errors <= length types.
Proof.
  intros Harr Hpos Hlen Hlong. split; [|by eapply positions_errors].
  apply positions_loop with (acc := []) in Hpos. cbn [app] in Hpos.
  cbn [tuple validate].
  rewrite (bind_Ok _ _ _ _ _ (arrayType_validate_array _ _ _ _ Harr)).
  unfold indexed. rewrite (bind_Ok _ _ _ _ _ Hpos). rewrite bind_reads.
  rewrite Hlen. rewrite decide_True by done.
  unfold ret. f_equal. apply errors_or_cons. by destruct errors.
Qed.

Lemma tuple_rejects_first_excess_index_witness :
  validate (tuple [string_; number] None) (VRef 0) (KString "") (mkDecoder "T")
           [OArray [VNumber 1; VString "x"; VBoolean true; VBoolean false]]
  = Ok (Left (mkVError (VRef 0) "" (mkDecoder "T")
                ([mkVError (VNumber 1) "0" (mkDecoder "string") [];
                  mkVError (VString "x") "1" (mkDecoder "number") []] ++
                 [mkVError (VBoolean true) "2" (mkDecoder "never") []])))
       [OArray [VNumber 1; VString "x"; VBoolean true; VBoolean false]] /\
  length [mkVError (VNumber 1) "0" (mkDecoder "string") [];
          mkVError (VString "x") "1" (mkDecoder "number") []] <= 2.
Proof.
  apply (tuple_rejects_first_excess_index [string_; number] None 0 (KString "")
           (mkDecoder "T")
           [OArray [VNumber 1; VString "x"; VBoolean true; VBoolean false]]
           [OArray [VNumber 1; VString "x"; VBoolean true; VBoolean false]] (VRef 0)
           [mkVError (VNumber 1) "0" (mkDecoder "string") [];
            mkVError (VString "x") "1" (mkDecoder "number") []]);
    [reflexivity | | reflexivity | cbn; lia].
  eapply positions_fail; [reflexivity|].
  eapply positions_fail; [reflexivity|].
  apply positions_nil.
Defined.

(** The tuple [[string]] on [["a", 1, 2]]: index 2 is in excess and gets no
    error. *)
Lemma tuple_excess_counterexample :
  ~ tuple_rejects_every_excess_index [string_] (VRef 0)
      [OArray [VString "a"; VNumber 1; VNumber 2]].
Proof.
  intros Hclaim.
  destruct (Hclaim (KString "") (mkDecoder "T") None eq_refl) as (e & h' & Hv & Hall).
  { cbn. lia. }
  injection Hv as <- <-.
  destruct (Hall 2) as (child & Hin & Hkey & _).
  { cbn. lia. }
  cbn [children] in Hin. apply list_elem_of_singleton in Hin. subst child.
  discriminate Hkey.
Qed.

(** ** Tagged unions *)


Lemma assoc_entries_set entries k v s :
  assoc s (entries_set entries k v)
  = if bool_decide (k = s) then Some v else assoc s entries.
Proof.
  induction entries as [|[k' v'] entries IH]; cbn [entries_set assoc].
  - done.
  - destruct (bool_decide (k' = k)) eqn:Hk'; cbn [assoc].
    + apply bool_decide_eq_true in Hk' as ->. by destruct (bool_decide (k = s)).
    + rewrite IH. destruct (bool_decide (k' = s)) eqn:Hs; [|done].
      apply bool_decide_eq_true in Hs as ->.
      by rewrite (bool_decide_eq_false_2 (k = s))
        by (intros ->; by apply bool_decide_eq_false in Hk').
Qed.






Lemma elem_of_indexed {A} (l : list A) i x : (i, x) ∈ indexed l <-> l !! i = Some x.
Proof.
  unfold indexed. rewrite list_elem_of_lookup. split.
  - intros [j Hj]. rewrite list_lookup_imap in Hj.
    destruct (l !! j) eqn:Hl; [|done]. by injection Hj as -> ->.
  - intros Hl. exists i. by rewrite list_lookup_imap, Hl.
Qed.








Lemma Dictionary_is_object h m :
  m <> VNull -> typeof h m = "object" -> is_ Dictionary m h = true.
Proof.
  intros Hnull Hobj. cbn [Dictionary is_]. rewrite Hobj.
  rewrite bool_decide_eq_true_2 by done.
  by rewrite strict_eq_false.
Qed.







(** ** The container guard *)

Lemma Dictionary_is_array h l elems :
  h !! l = Some (OArray elems) -> is_ Dictionary (VRef l) h = true.
Proof. intros Hl. apply Dictionary_is_object; [done|]. cbn [typeof]. by rewrite Hl. Qed.

Lemma errors_or_Left errors m k decoder a e :
  errors_or errors m k decoder a = Left e -> children e = errors /\ errors <> [].
Proof. destruct errors; [done|]. by intros [= <-]. Qed.

Lemma interface_failure_has_children props oname m c decoder h e h' :
  is_ Dictionary m h = true ->
  validate (interface props oname) m c decoder h = Ok (Left e) h' ->
  children e <> [].
Proof.
  intros Hd. cbn [interface validate].
  rewrite (bind_Ok _ _ _ _ _ (Dictionary_validate_container _ _ _ _ Hd)).
  intros H. apply bind_inv_Ok in H as ([a errors] & h1 & _ & H).
  injection H as H _. apply errors_or_Left in H as [-> H]. done.
Qed.

(** C10.  The container guard accepts every non-null value whose [typeof]
    is ["object"], arrays included.  Hence [Dictionary] and [object] decode
    an array to that same array in an unchanged store, and the object-like
    combinators go on to their field loops on an array: a failure of
    [interface], [partial], [strict] or [dictionary] on an array always
    carries children (it is never the guard's leaf rejection), an interface
    without declared fields returns the array itself, and a childless
    failure of a tagged union on an array can only be a member's own. *)
Theorem container_guard_accepts_arrays
    (JSON_stringify : heap -> mixed -> string)
    (h : heap) (l : loc) (elems : list mixed) (c : Key) (decoder : Decoder) :
  h !! l = Some (OArray elems) ->
  (forall m, m <> VNull -> typeof h m = "object" -> is_ Dictionary m h = true) /\
  is_ Dictionary (VRef l) h = true /\
  decode Dictionary (VRef l) h = Ok (Success (VRef l)) h /\
  is_ object_ (VRef l) h = true /\
  decode object_ (VRef l) h = Ok (Success (VRef l)) h /\
  validate (interface [] None) (VRef l) c decoder h = Ok (Success (VRef l)) h /\
  (forall props oname e h',
     validate (interface props oname) (VRef l) c decoder h = Ok (Left e) h' ->
     children e <> []) /\
  (forall props oname e h',
     validate (partial props oname) (VRef l) c decoder h = Ok (Left e) h' ->
     children e <> []) /\
  (forall props oname e h',
     validate (strict props oname) (VRef l) c decoder h = Ok (Left e) h' ->
     children e <> []) /\
  (forall domain codomain oname e h',
     validate (dictionary domain codomain oname) (VRef l) c decoder h = Ok (Left e) h' ->
     children e <> []) /\
  (forall tag types oname T e h',
     taggedUnion JSON_stringify tag types oname = Some T ->
     validate T (VRef l) c decoder h = Ok (Left e) h' ->
     children e = [] ->
     exists t, t ∈ types /\ validate t (VRef l) c (asDecoder t) h = Ok (Left e) h').
Proof.
  intros Hl. pose proof (Dictionary_is_array h l elems Hl) as Hd.
  split; [by apply Dictionary_is_object|].
  split; [done|].
  split; [by apply Dictionary_validate_container|].
  split; [done|].
  split; [by apply Dictionary_validate_container|].
  split.
  { cbn [interface validate].
    by rewrite (bind_Ok _ _ _ _ _ (Dictionary_validate_container _ _ _ _ Hd)). }
  split; [intros props oname e h'; by apply interface_failure_has_children|].
  split.
  { intros props oname e h'. cbn [partial validate].
    by apply (interface_failure_has_children _ None). }
  split.
  { intros props oname e h'. cbn [strict validate]. intros H.
    apply bind_inv_Ok in H as ([e1|o] & h1 & Hloose & H).
    - injection H as <- <-. by eapply interface_failure_has_children.
    - rewrite bind_reads in H. injection H as H _.
      apply errors_or_Left in H as [-> H]. done. }
  split.
  { intros domain codomain oname e h'. cbn [dictionary validate].
    rewrite (bind_Ok _ _ _ _ _ (Dictionary_validate_container _ _ _ _ Hd)).
    intros H. apply bind_inv_Ok in H as (a & h1 & _ & H).
    rewrite bind_reads in H.
    apply bind_inv_Ok in H as ([errors changed] & h2 & _ & H).
    injection H as H _. apply errors_or_Left in H as [-> H]. done. }
  intros tag types oname T e h' HT. unfold taggedUnion in HT.
  destruct (tag_tables tag (indexed types) (∅, [])) as [[idx vals]|]; [|done].
  injection HT as <-. cbn [validate].
  rewrite (bind_Ok _ _ _ _ _ (guard_validate_pass _ (VRef l) c decoder h Hd)), bind_reads.
  intros H Hleaf. apply bind_inv_Ok in H as ([e1|tagValue] & h1 & Hkey & H).
  - rewrite bind_reads in H. injection H as <- _. done.
  - unfold guard_validate in Hkey. rewrite bind_reads in Hkey.
    injection Hkey as _ <-.
    destruct (tagged_member idx types tagValue) as [t|] eqn:Ht; [|done].
    exists t. split; [|done].
    destruct tagValue as [| | | |s| |]; try done. cbn [tagged_member] in Ht.
    destruct (idx !! s) as [i|]; [|done]. by eapply list_elem_of_lookup_2.
Qed.

Lemma container_guard_accepts_arrays_witness :
  is_ Dictionary (VRef 0) [OArray [VNumber 1; VNumber 2]] = true /\
  decode Dictionary (VRef 0) [OArray [VNumber 1; VNumber 2]]
  = Ok (Success (VRef 0)) [OArray [VNumber 1; VNumber 2]] /\
  validate (interface [] None) (VRef 0) (KString "") (mkDecoder "T")
           [OArray [VNumber 1; VNumber 2]]
  = Ok (Success (VRef 0)) [OArray [VNumber 1; VNumber 2]].
Proof.
  destruct (container_guard_accepts_arrays sample_stringify
              [OArray [VNumber 1; VNumber 2]] 0 [VNumber 1; VNumber 2]
              (KString "") (mkDecoder "T") eq_refl)
    as (_ & His & Hdec & _ & _ & Hopen & _).
  exact (conj His (conj Hdec Hopen)).
Defined.

(** ** Intersections *)

Lemma intersection_loop types : forall i a acc h a' errors h',
  narrowing i types a h a' errors h' ->
  for_each (imap (fun k => pair (i + k)) types) intersection_step (a, acc) h
  = Ok (a', acc ++ errors) h'.
Proof.
  induction types as [|t types IH]; intros i a acc h a' errors h' Hrun;
    inversion Hrun as [| ? ? ? ? ? e h1 ? es ? Hv Hrest | ? ? ? ? ? v h1 ? es ? Hv Hrest];
    subst.
  - cbn. by rewrite app_nil_r.
  - rewrite imap_cons. cbn [for_each]. unfold intersection_step at 1.
    cbv beta iota zeta. rewrite Nat.add_0_r, bind_assoc, (bind_Ok _ _ _ _ _ Hv), bind_ret.
    rewrite (imap_ext _ (fun k => pair (S i + k))) by (intros; cbn; f_equal; lia).
    rewrite (IH _ _ _ _ _ _ _ Hrest). by rewrite <- app_assoc.
  - rewrite imap_cons. cbn [for_each]. unfold intersection_step at 1.
    cbv beta iota zeta. rewrite Nat.add_0_r, bind_assoc, (bind_Ok _ _ _ _ _ Hv), bind_ret.
    rewrite (imap_ext _ (fun k => pair (S i + k))) by (intros; cbn; f_equal; lia).
    by rewrite (IH _ _ _ _ _ _ _ Hrest).
Qed.

(** What the intersection does with its members' failures: it fails
    exactly when the spliced list of children is non-empty, and then its
    error node has that list as children. *)
Lemma intersection_validate_spliced types oname m c decoder h a errors h' :
  narrowing 0 types m h a errors h' ->
  validate (intersection types oname) m c decoder h
  = Ok (errors_or errors m (String_of c) decoder a) h'.
Proof.
  intros Hrun. cbn [intersection validate]. unfold indexed.
  by rewrite (bind_Ok _ _ _ _ _ (intersection_loop types 0 m [] h a errors h' Hrun)).
Qed.

(** ** Arrays *)

(** Writing into a slot the value it holds leaves the store as it is. *)
Lemma set_index_same (h : heap) l elems i x :
  h !! l = Some (OArray elems) -> elems !! i = Some x ->
  set_index (VRef l) i x h = Ok tt h.
Proof.
  intros Hl Hx. unfold set_index. rewrite Hl. f_equal. unfold array_set.
  rewrite decide_True by (by eapply lookup_lt_Some).
  rewrite (list_insert_id elems i x Hx). by apply list_insert_id.
Qed.

(** An element that validates to itself leaves the array alone: the
    element NaN, which differs from itself, is written back where it was. *)
Lemma array_step_same t l elems (h : heap) i x acc :
  h !! l = Some (OArray elems) -> elems !! i = Some x ->
  validate t x (KNumber i) (asDecoder t) h = Ok (Success x) h ->
  array_step t (VRef l) i (VRef l, acc) h = Ok (VRef l, acc) h.
Proof.
  intros Hl Hx Hv. unfold array_step. cbv beta iota zeta.
  rewrite bind_reads. cbn [get_index]. rewrite Hl, Hx. cbn [default].
  rewrite (bind_Ok _ _ _ _ _ Hv). cbv beta iota. unfold id.
  destruct (strict_eq x x) eqn:Hxx; cbn [negb]; [reflexivity|].
  apply strict_eq_irrefl in Hxx as ->.
  rewrite (strict_eq_false (VRef l) (VNumber NaN)) by done.
  rewrite bind_ret. by rewrite (bind_Ok _ _ _ _ _ (set_index_same h l elems i _ Hl Hx)).
Qed.

Lemma array_loop_unchanged t l elems h n : forall lo,
  h !! l = Some (OArray elems) ->
  lo + n = length elems ->
  (forall i x, elems !! i = Some x ->
               validate t x (KNumber i) (asDecoder t) h = Ok (Success x) h) ->
  for_range lo n (array_step t (VRef l)) (VRef l, []) h = Ok (VRef l, []) h.
Proof.
  induction n as [|n IH]; intros lo Hl Hlen Hsame; [done|].
  cbn [for_range].
  destruct (lookup_lt_is_Some_2 elems lo) as [x Hx]; [lia|].
  rewrite (bind_Ok _ _ _ _ _ (array_step_same t l elems h lo x [] Hl Hx (Hsame lo x Hx))).
  apply IH; [done | lia | done].
Qed.

(** The half of the array rule that the code keeps: when every element
    validates to itself and leaves the store alone, the result is the input
    reference in an unchanged store. *)
Lemma array_validate_same_reference t oname l elems c decoder h :
  h !! l = Some (OArray elems) ->
  (forall i x, elems !! i = Some x ->
               validate t x (KNumber i) (asDecoder t) h = Ok (Success x) h) ->
  validate (array t oname) (VRef l) c decoder h = Ok (Success (VRef l)) h.
Proof.
  intros Hl Hsame. cbn [array validate].
  rewrite (bind_Ok _ _ _ _ _ (arrayType_validate_array h (VRef l) c decoder
                                 ltac:(cbn; by rewrite Hl))).
  rewrite bind_reads. cbn [array_length]. rewrite Hl.
  by rewrite (bind_Ok _ _ _ _ _ (array_loop_unchanged t l elems h (length elems) 0
                                   Hl eq_refl Hsame)).
Qed.

(** ** Inputs on which the code departs from its stated laws *)

(** C5.  An array of one element [x] whose element type validates [x] to
    a different value [w]: the result is the input reference itself and the
    input array has been overwritten in place (its slot 0 now holds [w]);
    no copy is made.  The guard before the copy compares [a] with the
    element's validation instead of with [xs].  The ground instance is
    [array(DateFromNumber)] on [[1]]. *)
Theorem array_validate_overwrites_input
    (t : RType) (oname : option string) (l : loc) (x w : mixed) (c : Key)
    (decoder : Decoder) (h h1 : heap) :
  h !! l = Some (OArray [x]) ->
  validate t x (KNumber 0) (asDecoder t) h = Ok (Success w) h1 ->
  h1 !! l = Some (OArray [x]) ->
  w <> x ->
  w <> VRef l ->
  validate (array t oname) (VRef l) c decoder h
  = Ok (Success (VRef l)) (<[l := OArray [w]]> h1).
Proof.
  intros Hl Hv Hl1 Hwx Hwl. cbn [array validate].
  rewrite (bind_Ok _ _ _ _ _ (arrayType_validate_array h (VRef l) c decoder
                                 ltac:(cbn; by rewrite Hl))).
  rewrite bind_reads. cbn [array_length]. rewrite Hl. cbn [length for_range].
  unfold array_step. cbv beta iota zeta.
  rewrite !bind_assoc, bind_reads. cbn [get_index]. rewrite Hl. cbn [lookup list_lookup default].
  rewrite bind_assoc, (bind_Ok _ _ _ _ _ Hv).
  unfold id. rewrite (strict_eq_false w x) by done. cbn [negb].
  rewrite (strict_eq_false (VRef l) w) by done.
  rewrite !bind_assoc, bind_ret. rewrite bind_assoc.
  unfold set_index at 1. unfold bind at 1. rewrite Hl1. done.
Qed.

Lemma array_validate_overwrites_input_witness :
  validate (array DateFromNumber None) (VRef 0) (KString "")
           (asDecoder (array DateFromNumber None)) [OArray [VNumber 1]]
  = Ok (Success (VRef 0)) (<[0 := OArray [VRef 1]]> [OArray [VNumber 1]; ODate 1]).
Proof.
  apply (array_validate_overwrites_input DateFromNumber None 0 (VNumber 1) (VRef 1)
           (KString "") (asDecoder (array DateFromNumber None))
           [OArray [VNumber 1]] [OArray [VNumber 1]; ODate 1]);
    [reflexivity | reflexivity | reflexivity | discriminate | discriminate].
Defined.

(** C3.  When the first member of an intersection fails with a leaf error
    (an error node without children), the splice adds nothing; if the other
    members add nothing either, no error is recorded and the intersection
    succeeds.  The ground instance is [intersection([string, number])] on
    [1]. *)
Theorem intersection_drops_leaf_failure
    (t : RType) (rest : list RType) (oname : option string) (m a : mixed) (c : Key)
    (decoder : Decoder) (h h1 h' : heap) (e : VError) :
  validate t m (KNumber 0) (asDecoder t) h = Ok (Left e) h1 ->
  children e = [] ->
  narrowing 1 rest m h1 a [] h' ->
  validate (intersection (t :: rest) oname) m c decoder h = Ok (Success a) h'.
Proof.
  intros Hfail Hleaf Hrest.
  rewrite (intersection_validate_spliced (t :: rest) oname m c decoder h a [] h'); [done|].
  replace (@nil VError) with (children e ++ []) by (by rewrite Hleaf).
  by eapply narrowing_fail.
Qed.

Lemma intersection_drops_leaf_failure_witness :
  validate (intersection [string_; number] None) (VNumber 1) (KString "")
           (asDecoder (intersection [string_; number] None)) []
  = Ok (Success (VNumber 1)) [].
Proof.
  apply (intersection_drops_leaf_failure string_ [number] None (VNumber 1) (VNumber 1)
           (KString "") (asDecoder (intersection [string_; number] None)) [] [] []
           (mkVError (VNumber 1) "0" (mkDecoder "string") []));
    [reflexivity | reflexivity |].
  eapply narrowing_pass; [reflexivity | apply narrowing_nil].
Defined.

(** C1.  [partial({ a: never })] accepts the object [{ b: 1 }]; its
    encoder builds the output from the declared keys only, so the encoded
    object is [{}], which decodes to [{}]: the round trip loses [b]. *)
Theorem partial_round_trip_loses_undeclared_key :
  let P := partial [("a", never)] None in
  let h0 := [ODictionary [("b", VNumber 1)]] in
  let h1 := [ODictionary [("b", VNumber 1)]; ODictionary []] in
  is_ P (VRef 0) h0 = true /\
  run_encode (encode P) (VRef 0) h0 = Ok (VRef 1) h1 /\
  decode P (VRef 1) h1 = Ok (Success (VRef 1)) h1 /\
  get h1 (VRef 0) "b" = VNumber 1 /\
  get h1 (VRef 1) "b" = VUndefined.
Proof. repeat split; reflexivity. Qed.

(** ** Ground checks against the laws of the test suite *)

(** A member after the first success is never run, even one that would
    throw. *)
Example union_skips_later_members :
  decode (union [string_; throwing] None) (VString "5") [] = Ok (Success (VString "5")) [].
Proof. reflexivity. Qed.

(** [strict({ foo: string })] on [{ foo: "x", bar: 1 }] reports [bar]
    against [never]. *)
Example strict_reports_extra_key :
  (fun v => PathReporter_report sample_stringify [] v)
    <$> (match decode (strict [("foo", string_)] (Some "T")) (VRef 0)
                 [ODictionary [("foo", VString "x"); ("bar", VNumber 1)]] with
         | Ok v _ => Some v
         | Throw _ => None
         end)
  = Some (Some ["Invalid value 1 supplied to : T/bar: never"]).
Proof. reflexivity. Qed.

(** [tuple([string, number])] accepts [["a", 1]]. *)
Example tuple_accepts_exact_arity :
  decode (tuple [string_; number] None) (VRef 0) [OArray [VString "a"; VNumber 1]]
  = Ok (Success (VRef 0)) [OArray [VString "a"; VNumber 1]].
Proof. reflexivity. Qed.

(** An array whose elements validate to themselves comes back as the same
    reference, in an unchanged store. *)
Example array_same_reference :
  decode (array number None) (VRef 0) [OArray [VNumber 1; VNumber 2]]
  = Ok (Success (VRef 0)) [OArray [VNumber 1; VNumber 2]].
Proof. reflexivity. Qed.

(** The interface copies before it writes: the input object is intact. *)
Example interface_copies_on_write :
  decode (interface [("foo", DateFromNumber)] None) (VRef 0) [ODictionary [("foo", VNumber 1)]]
  = Ok (Success (VRef 2))
       [ODictionary [("foo", VNumber 1)]; ODate 1; ODictionary [("foo", VRef 1)]].
Proof. reflexivity. Qed.

(** A declared field the object does not own is read off its prototype:
    [type({ toString: string })] on [{}] finds a function there, and
    [partial] of the same does not take the field for absent. *)
Example interface_reads_inherited_field :
  decode (interface [("toString", string_)] (Some "T")) (VRef 0) [ODictionary []]
  = Ok (Left (mkVError (VRef 0) "" (mkDecoder "T")
                [mkVError (VBuiltin (Method "Object" "toString")) "toString"
                   (mkDecoder "string") []])) [ODictionary []] /\
  isLeft (match decode (partial [("toString", string_)] None) (VRef 0) [ODictionary []] with
          | Ok v _ => v
          | Throw _ => Success VNull
          end) = true.
Proof. split; reflexivity. Qed.

(** NaN is a number that differs from itself: [type({ a: number })] on
    [{ a: NaN }] succeeds with a copy, and [array(number)] on [[NaN]]
    writes NaN back into the input. *)
Example interface_copies_on_NaN :
  decode (interface [("a", number)] None) (VRef 0) [ODictionary [("a", VNumber NaN)]]
  = Ok (Success (VRef 1))
       [ODictionary [("a", VNumber NaN)]; ODictionary [("a", VNumber NaN)]] /\
  decode (array number None) (VRef 0) [OArray [VNumber NaN]]
  = Ok (Success (VRef 0)) [OArray [VNumber NaN]].
Proof. split; reflexivity. Qed.

(** [Integer] rejects a number with a fractional part, and
    [DateFromNumber] drops the fractional part: [1.5] becomes the date of
    time [1]. *)
Example fractions_are_numbers :
  decode Integer (VNumber (Fraction false 1 5)) []
  = Ok (Left (mkVError (VNumber (Fraction false 1 5)) "" (mkDecoder "Integer") [])) [] /\
  decode Integer (VNumber 2) [] = Ok (Success (VNumber 2)) [] /\
  decode DateFromNumber (VNumber (Fraction false 1 5)) [] = Ok (Success (VRef 0)) [ODate 1] /\
  isLeft (match decode DateFromNumber (VNumber NaN) [] with
          | Ok v _ => v
          | Throw _ => Success VNull
          end) = true.
Proof. repeat split; reflexivity. Qed.

(** * Further properties of the code *)

(** ** The store *)

Lemma lookup_alloc (h : heap) (o : object) : (h ++ [o]) !! length h = Some o.
Proof.
  change heap with (list object) in *.
  rewrite lookup_app_r by lia. by rewrite Nat.sub_diag.
Qed.

(** ** [pipe] *)

(** X1.  Piping is associative: validating through [(a | b) | c] and
    through [a | (b | c)] gives the same outcome in the same store, and so
    does encoding. *)
Theorem pipe_assoc (a b c : RType) (n1 n2 n3 n4 : option string)
    (i : mixed) (k : Key) (decoder : Decoder) (h : heap) :
  validate (pipe (pipe a b n1) c n2) i k decoder h
  = validate (pipe a (pipe b c n3) n4) i k decoder h /\
  run_encode (encode (pipe (pipe a b n1) c n2)) i h
  = run_encode (encode (pipe a (pipe b c n3) n4)) i h.
Proof.
  split.
  - cbn [pipe validate]. rewrite bind_assoc. unfold bind.
    destruct (validate a i k decoder h) as [[e|x] h1|]; done.
  - cbn [pipe encode].
    destruct (encode a) as [|fa], (encode b) as [|fb], (encode c) as [|fc];
      cbn [is_identity andb run_encode]; try done; unfold bind, ret;
      repeat match goal with
             | |- context [match ?m with Ok _ _ => _ | Throw _ => _ end] => destruct m
             end; done.
Qed.

(** X2.  The encoder of [pipe(this, ab)] is always "[ab]'s encoder, then
    [this]'s", also when the shortcut to [identity] is taken; and it is the
    [identity] function exactly when both encoders are. *)
Theorem pipe_encode_composes (this ab : RType) (oname : option string) (b : mixed)
    (h : heap) :
  run_encode (encode (pipe this ab oname)) b h
  = bind (run_encode (encode ab) b) (run_encode (encode this)) h /\
  (is_identity (encode (pipe this ab oname)) = true <->
   is_identity (encode this) = true /\ is_identity (encode ab) = true).
Proof.
  cbn [pipe encode]. split.
  - destruct (encode this) as [|f], (encode ab) as [|g];
      cbn [is_identity andb run_encode]; done.
  - destruct (encode this), (encode ab); cbn; split; try done; by intros [? ?].
Qed.

(** ** Refinement, continued *)

(** X3.  A refinement never accepts what its predicate rejects: a success
    is the base type's success on a value the predicate holds of, and a
    failure is either the base type's own failure, handed on as it is, or a
    leaf error for a value the base accepted and the predicate rejected. *)
Theorem refinement_sound (t : RType) (predicate : Predicate) (oname : option string)
    (i : mixed) (c : Key) (decoder : Decoder) (h h' : heap) (r : Validation) :
  validate (refinement t predicate oname) i c decoder h = Ok r h' ->
  match r with
  | Success w => validate t i c decoder h = Ok (Success w) h' /\ holds predicate w h' = true
  | Left e =>
      validate t i c decoder h = Ok (Left e) h' \/
      exists w, validate t i c decoder h = Ok (Success w) h' /\
                holds predicate w h' = false /\
                e = mkVError w (String_of c) decoder []
  end.
Proof.
  cbn [refinement validate]. intros H.
  apply bind_inv_Ok in H as ([e|w] & h1 & Hbase & H).
  - injection H as <- <-. by left.
  - rewrite bind_reads in H. destruct (holds predicate w h1) eqn:Hp;
      injection H as <- <-; [done|]. right. by exists w.
Qed.

Lemma refinement_sound_witness :
  validate number (VNumber 3) (KString "") (mkDecoder "Integer") []
  = Ok (Success (VNumber 3)) [] /\
  holds (mkPredicate (mkFunctionInfo "" "" 1)
           (fun n _ => match n with VNumber x => is_whole x | _ => false end))
        (VNumber 3) [] = true.
Proof.
  apply (refinement_sound number _ (Some "Integer") (VNumber 3) (KString "")
           (mkDecoder "Integer") [] [] (Success (VNumber 3))).
  reflexivity.
Defined.

(** ** [DateFromNumber] *)

(** X4.  [DateFromNumber] turns a number into a fresh [Date] holding the
    number clipped to a time value: without its fractional part, and NaN
    when the number is not finite or out of the range of dates.  If the
    time value is a number, the [Date] is the result, the type guard
    accepts it, and it encodes to the time value, which is the number
    decoded exactly when that was whole.  If the time value is NaN, the
    number fails with a leaf error against the caller's decoder (the [Date]
    has been created all the same).  Anything that is not a number fails
    against the decoder [number], not the caller's, in an unchanged
    store. *)
Theorem DateFromNumber_decode_encode (m : mixed) (c : Key) (decoder : Decoder) (h : heap) :
  match m with
  | VNumber x =>
      if isNaN (TimeClip x) then
        validate DateFromNumber m c decoder h
        = Ok (Left (mkVError m (String_of c) decoder [])) (h ++ [ODate NaN])
      else
        validate DateFromNumber m c decoder h
        = Ok (Success (VRef (length h))) (h ++ [ODate (TimeClip x)]) /\
        is_ DateFromNumber (VRef (length h)) (h ++ [ODate (TimeClip x)]) = true /\
        run_encode (encode DateFromNumber) (VRef (length h)) (h ++ [ODate (TimeClip x)])
        = Ok (VNumber (TimeClip x)) (h ++ [ODate (TimeClip x)]) /\
        (TimeClip x = x <-> is_whole x = true)
  | _ =>
      validate DateFromNumber m c decoder h
      = Ok (Left (mkVError m (String_of c) (asDecoder number) [])) h
  end.
Proof.
  destruct m as [| |b|x|s|l|b]; try reflexivity.
  - assert (validate DateFromNumber (VNumber x) c decoder h
            = Ok (if isNaN (TimeClip x)
                  then failure (VNumber x) (String_of c) decoder []
                  else success (VRef (length h))) (h ++ [ODate (TimeClip x)])) as Hv.
    { assert (validate number (VNumber x) c (asDecoder number) h
              = Ok (Success (VNumber x)) h) as Hn by reflexivity.
      cbn [DateFromNumber validate]. by rewrite (bind_Ok _ _ _ _ _ Hn). }
    rewrite Hv. destruct (isNaN (TimeClip x)) eqn:Hclip.
    { by destruct (TimeClip x). }
    split; [done|]. cbn [DateFromNumber is_ encode run_encode instanceof_Date].
    rewrite lookup_alloc. split; [done|]. split; [done|].
    destruct x as [|neg|z|neg whole digits]; cbn [TimeClip is_whole] in *; try done.
    + by destruct (bool_decide (Z.abs z <= 8640000000000000)%Z).
    + by destruct (bool_decide (whole < 8640000000000000)%N).
  - assert (validate number (VRef l) c (asDecoder number) h
            = Ok (Left (mkVError (VRef l) (String_of c) (asDecoder number) [])) h) as Hr.
    { apply guard_validate_reject. apply bool_decide_eq_false_2. cbn [typeof].
      by destruct (h !! l) as [[| | |]|]. }
    cbn [DateFromNumber validate]. by rewrite (bind_Ok _ _ _ _ _ Hr).
  - assert (validate number (VBuiltin b) c (asDecoder number) h
            = Ok (Left (mkVError (VBuiltin b) (String_of c) (asDecoder number) [])) h) as Hr.
    { apply guard_validate_reject. apply bool_decide_eq_false_2. cbn [typeof].
      destruct b as [class| |]; [|done|done]. by destruct (bool_decide (class = "Function")). }
    cbn [DateFromNumber validate]. by rewrite (bind_Ok _ _ _ _ _ Hr).
Qed.

Lemma DateFromNumber_decode_encode_witness :
  validate DateFromNumber (VNumber (Fraction false 1 5)) (KString "") (mkDecoder "T") []
  = Ok (Success (VRef 0)) [ODate 1] /\
  is_ DateFromNumber (VRef 0) [ODate 1] = true /\
  run_encode (encode DateFromNumber) (VRef 0) [ODate 1] = Ok (VNumber 1) [ODate 1] /\
  (Whole 1 = Fraction false 1 5 <-> false = true).
Proof.
  exact (DateFromNumber_decode_encode (VNumber (Fraction false 1 5)) (KString "")
           (mkDecoder "T") []).
Defined.

(** ** The reporters *)

Lemma leaf_count_pos e : 0 < leaf_count e.
Proof.
  induction e as [v k t cs IH] using VError_forall_ind.
  destruct cs as [|c cs]; [cbn; lia|].
  rewrite leaf_count_children. apply Forall_cons in IH as [Hc _].
  cbn [List.map list_sum fold_right]. lia.
Qed.

Lemma leaf_paths_root e leaf :
  leaf ∈ leaf_paths e -> exists p, snd leaf = (key e, decoder_name (type e)) :: p.
Proof.
  destruct e as [v k t [|c cs]].
  - cbn. intros ->%list_elem_of_singleton. by exists [].
  - rewrite leaf_paths_children. intros Hin.
    apply list_elem_of_In, in_map_iff in Hin as (leaf' & <- & _). cbn. by eexists.
Qed.

(** X5.  A failure always has something to report: the path reporter
    returns at least one message for it, and every flattened error's
    context starts with the root node's key and type. *)
Theorem PathReporter_failure_nonempty
    (JSON_stringify : heap -> mixed -> string) (h : heap) (e : VError) :
  (exists message messages,
     PathReporter_report JSON_stringify h (Left e) = Some (message :: messages)) /\
  (forall err, err ∈ convertError e ->
     exists rest, context err = mkContextEntry (key e) (type e) :: rest).
Proof.
  split.
  - cbn [PathReporter_report]. unfold report_failure.
    pose proof (leaf_count_pos e) as Hpos. rewrite <- length_leaf_paths in Hpos.
    rewrite convertError_leaf_paths.
    destruct (leaf_paths e) as [|leaf leaves]; [cbn in Hpos; lia|].
    rewrite !fmap_cons. by eexists _, _.
  - intros err Hin. rewrite convertError_leaf_paths in Hin.
    apply list_elem_of_fmap in Hin as (leaf & -> & Hleaf).
    apply leaf_paths_root in Hleaf as (p & Hp).
    unfold flat_error. cbn [context]. rewrite Hp. rewrite fmap_cons. cbn.
    destruct (type e). by eexists.
Qed.

(** X6.  The throwing reporter throws exactly on a failure, with the path
    reporter's messages (one per leaf) joined by newlines as the message;
    on a success it returns and leaves the store as it is. *)
Theorem ThrowReporter_throws_on_failure
    (JSON_stringify : heap -> mixed -> string) (validation : Validation) (h : heap) :
  match validation with
  | Left e =>
      ThrowReporter_report JSON_stringify validation h
      = Throw (join newline (leaf_message JSON_stringify h <$> leaf_paths e))
  | Success _ => ThrowReporter_report JSON_stringify validation h = Ok tt h
  end.
Proof.
  destruct validation as [e|a]; [|done].
  unfold ThrowReporter_report. cbn [isLeft PathReporter_report].
  unfold report_failure. rewrite convertError_leaf_paths, <- list_fmap_compose.
  do 2 f_equal. apply list_fmap_ext. intros _ leaf _. apply getMessage_flat_error.
Qed.

(** ** Union, continued *)

Lemma union_encode_skip pre : forall t post a h,
  (forall p, p ∈ pre -> is_ p a h = false) ->
  union_encode (pre ++ t :: post) a h = union_encode (t :: post) a h.
Proof.
  induction pre as [|p pre IH]; intros t post a h Hpre; [done|].
  cbn [app union_encode].
  destruct (pre ++ t :: post) eqn:Hl; [by destruct pre|]. rewrite <- Hl.
  rewrite bind_reads, (Hpre p) by left.
  apply IH. intros q Hq. apply Hpre. by right.
Qed.

(** X7.  The encoder of a union uses the first member, among all but the
    last, whose type guard accepts the value, and falls back on the last
    member without asking its guard. *)
Theorem union_encode_first_match (pre : list RType) (t : RType) (post : list RType)
    (oname : option string) (a : mixed) (h : heap) :
  (forall p, p ∈ pre -> is_ p a h = false) ->
  post = [] \/ is_ t a h = true ->
  run_encode (encode (union (pre ++ t :: post) oname)) a h = run_encode (encode t) a h.
Proof.
  intros Hpre Ht. cbn [union encode].
  destruct (forallb (fun t0 => is_identity (encode t0)) (pre ++ t :: post)) eqn:Hid.
  - rewrite forallb_app in Hid. apply andb_true_iff in Hid as [_ Hid].
    cbn [forallb] in Hid. apply andb_true_iff in Hid as [Hid _].
    by destruct (encode t).
  - cbn [run_encode]. rewrite union_encode_skip by done.
    destruct post as [|q post]; [done|]. destruct Ht as [?|Ht]; [done|].
    cbn [union_encode]. by rewrite bind_reads, Ht.
Qed.

Lemma union_encode_first_match_witness :
  run_encode (encode (union ([string_] ++ DateFromNumber :: [never]) None)) (VRef 0) [ODate 5]
  = run_encode (encode DateFromNumber) (VRef 0) [ODate 5].
Proof.
  apply (union_encode_first_match [string_] DateFromNumber [never] None (VRef 0) [ODate 5]).
  - intros p Hp. apply list_elem_of_singleton in Hp as ->. reflexivity.
  - right. reflexivity.
Defined.

(** ** Error collection and sharing *)

Lemma lefts_cons v vs :
  lefts (v :: vs) = match v with Left e => e :: lefts vs | Success _ => lefts vs end.
Proof. by destruct v. Qed.

Lemma interface_loop_stable o h (res : string -> RType -> Validation) props : forall acc,
  (forall k t, (k, t) ∈ props ->
     validate t (get h o k) (KString k) (asDecoder t) h = Ok (res k t) h /\
     forall v, res k t = Success v -> strict_eq v (get h o k) = true) ->
  for_each props (interface_step o) (o, acc) h
  = Ok (o, acc ++ lefts ((fun kt => res (fst kt) (snd kt)) <$> props)) h.
Proof.
  induction props as [|[k t] props IH]; intros acc Hfields.
  - cbn. by rewrite app_nil_r.
  - cbn [for_each]. unfold interface_step at 1. cbv beta iota zeta.
    rewrite bind_assoc, bind_reads, bind_assoc.
    destruct (Hfields k t) as [Hv Hsame]; [left|].
    rewrite (bind_Ok _ _ _ _ _ Hv), fmap_cons, lefts_cons. cbn [fst snd].
    destruct (res k t) as [e|v].
    + rewrite bind_ret, IH by (intros; apply Hfields; by right).
      by rewrite <- app_assoc.
    + rewrite (Hsame v eq_refl). cbn [negb]. rewrite bind_ret.
      apply IH. intros; apply Hfields; by right.
Qed.

(** X8.  An interface runs every declared field and collects every
    failure: when each field either fails or validates to the value it
    holds (the same by [===], so not NaN), leaving the store alone, the
    result is the input reference itself if no field failed, and otherwise
    one error node whose children are all the field failures in the order
    of the props map.  The value a field holds is what [o[k]] reads, own
    or inherited. *)
Theorem interface_collects_field_errors
    (props : Props) (oname : option string) (o : mixed) (c : Key) (decoder : Decoder)
    (h : heap) (res : string -> RType -> Validation) :
  is_ Dictionary o h = true ->
  (forall k t, (k, t) ∈ props ->
     validate t (get h o k) (KString k) (asDecoder t) h = Ok (res k t) h /\
     forall v, res k t = Success v -> strict_eq v (get h o k) = true) ->
  validate (interface props oname) o c decoder h
  = Ok (errors_or (lefts ((fun kt => res (fst kt) (snd kt)) <$> props))
          o (String_of c) decoder o) h.
Proof.
  intros Hd Hfields. cbn [interface validate].
  rewrite (bind_Ok _ _ _ _ _ (Dictionary_validate_container _ _ _ _ Hd)).
  by rewrite (bind_Ok _ _ _ _ _ (interface_loop_stable o h res props [] Hfields)).
Qed.

Lemma interface_collects_field_errors_witness :
  validate (interface [("a", string_); ("b", number)] None) (VRef 0) (KString "")
           (mkDecoder "T") [ODictionary [("a", VNumber 1); ("b", VString "x")]]
  = Ok (Left (mkVError (VRef 0) "" (mkDecoder "T")
                [mkVError (VNumber 1) "a" (mkDecoder "string") [];
                 mkVError (VString "x") "b" (mkDecoder "number") []]))
       [ODictionary [("a", VNumber 1); ("b", VString "x")]].
Proof.
  refine (interface_collects_field_errors [("a", string_); ("b", number)] None (VRef 0)
            (KString "") (mkDecoder "T") [ODictionary [("a", VNumber 1); ("b", VString "x")]]
            (fun k t => Left (mkVError (if bool_decide (k = "a") then VNumber 1 else VString "x")
                                k (asDecoder t) [])) _ _).
  - reflexivity.
  - intros k t Hin. apply list_elem_of_In in Hin.
    destruct Hin as [[= <- <-] | [[= <- <-] | []]]; (split; [reflexivity | discriminate]).
Defined.

Lemma array_loop_stable t l elems h (res : nat -> mixed -> Validation) n : forall lo acc,
  h !! l = Some (OArray elems) ->
  lo + n = length elems ->
  (forall i x, elems !! i = Some x ->
     validate t x (KNumber i) (asDecoder t) h = Ok (res i x) h /\
     forall v, res i x = Success v -> v = x) ->
  for_range lo n (array_step t (VRef l)) (VRef l, acc) h
  = Ok (VRef l, acc ++ lefts (imap (fun j => res (lo + j)) (drop lo elems))) h.
Proof.
  induction n as [|n IH]; intros lo acc Hl Hlen Helems.
  - rewrite drop_ge by lia. cbn. by rewrite app_nil_r.
  - cbn [for_range]. unfold array_step at 1. cbv beta iota zeta.
    rewrite bind_assoc, bind_reads. cbn [get_index]. rewrite Hl.
    destruct (lookup_lt_is_Some_2 elems lo) as [x Hx]; [lia|].
    rewrite Hx. cbn [default].
    destruct (Helems lo x Hx) as [Hv Hsame].
    rewrite bind_assoc, (bind_Ok _ _ _ _ _ Hv).
    rewrite (drop_S _ _ _ Hx), imap_cons, lefts_cons, Nat.add_0_r.
    rewrite (imap_ext _ (fun j => res (S lo + j))) by (intros; cbn; f_equal; lia).
    destruct (res lo x) as [e|v] eqn:Hres.
    + rewrite bind_ret, IH by (done || lia). by rewrite <- app_assoc.
    + rewrite (Hsame v eq_refl) in Hv |- *. unfold id.
      destruct (strict_eq x x) eqn:Hxx; cbn [negb].
      * rewrite bind_ret. apply IH; done || lia.
      * apply strict_eq_irrefl in Hxx as ->.
        rewrite (strict_eq_false (VRef l) (VNumber NaN)) by done.
        rewrite !bind_assoc, bind_ret, bind_assoc.
        rewrite (bind_Ok _ _ _ _ _ (set_index_same h l elems lo _ Hl Hx)), bind_ret.
        apply IH; done || lia.
Qed.

(** X9.  An array type runs every element and collects every failure:
    when each element either fails or validates to itself, leaving the
    store alone, the result is the input reference itself if no element
    failed, and otherwise one error node whose children are all the element
    failures in index order. *)
Theorem array_collects_element_errors
    (t : RType) (oname : option string) (l : loc) (elems : list mixed) (c : Key)
    (decoder : Decoder) (h : heap) (res : nat -> mixed -> Validation) :
  h !! l = Some (OArray elems) ->
  (forall i x, elems !! i = Some x ->
     validate t x (KNumber i) (asDecoder t) h = Ok (res i x) h /\
     forall v, res i x = Success v -> v = x) ->
  validate (array t oname) (VRef l) c decoder h
  = Ok (errors_or (lefts (imap res elems)) (VRef l) (String_of c) decoder (VRef l)) h.
Proof.
  intros Hl Helems. cbn [array validate].
  rewrite (bind_Ok _ _ _ _ _ (arrayType_validate_array h (VRef l) c decoder
                                 ltac:(cbn; by rewrite Hl))).
  rewrite bind_reads. cbn [array_length]. rewrite Hl.
  by rewrite (bind_Ok _ _ _ _ _ (array_loop_stable t l elems h res (length elems) 0 []
                                   Hl eq_refl Helems)).
Qed.

Lemma array_collects_element_errors_witness :
  validate (array number None) (VRef 0) (KString "") (mkDecoder "T")
           [OArray [VString "a"; VNumber 1; VNull]]
  = Ok (Left (mkVError (VRef 0) "" (mkDecoder "T")
                [mkVError (VString "a") "0" (mkDecoder "number") [];
                 mkVError VNull "2" (mkDecoder "number") []]))
       [OArray [VString "a"; VNumber 1; VNull]].
Proof.
  refine (array_collects_element_errors number None 0 [VString "a"; VNumber 1; VNull]
            (KString "") (mkDecoder "T") [OArray [VString "a"; VNumber 1; VNull]]
            (fun i x => match x with
                        | VNumber _ => Success x
                        | _ => Left (mkVError x (index_key i) (mkDecoder "number") [])
                        end) _ _).
  - reflexivity.
  - intros i x Hx. destruct i as [|[|[|i]]]; cbn in Hx; try discriminate;
      injection Hx as <-; (split; [reflexivity | intros v Hv; by inversion Hv]).
Defined.

(** ** Partial *)

Lemma lefts_all_success (vs : list Validation) :
  Forall (fun v => isLeft v = false) vs -> lefts vs = [].
Proof.
  induction 1 as [|v vs Hv _ IH]; [done|]. rewrite lefts_cons. by destruct v.
Qed.

(** X10.  A partial type accepts an object on which every declared field
    reads as [undefined] (the object does not own the field and does not
    inherit it either), and returns that same object: the field's union
    with [undefined] accepts [undefined] as soon as the declared type,
    asked first, either rejects it or returns it. *)
Theorem partial_accepts_absent
    (props : Props) (oname : option string) (o : mixed) (c : Key) (decoder : Decoder)
    (h : heap) :
  is_ Dictionary o h = true ->
  (forall k t, (k, t) ∈ props -> get h o k = VUndefined) ->
  (forall k t, (k, t) ∈ props ->
     (exists e, validate t VUndefined (KNumber 0) (asDecoder t) h = Ok (Left e) h) \/
     validate t VUndefined (KNumber 0) (asDecoder t) h = Ok (Success VUndefined) h) ->
  validate (partial props oname) o c decoder h = Ok (Success o) h.
Proof.
  intros Hd Habsent Hundef. cbn [partial validate interface].
  rewrite (bind_Ok _ _ _ _ _ (Dictionary_validate_container _ _ _ _ Hd)).
  pose (partials := (fun kt : string * RType =>
                       (fst kt, union [snd kt; undefinedType] None)) <$> props).
  assert (forall k u, (k, u) ∈ partials ->
            validate u (get h o k) (KString k) (asDecoder u) h = Ok (Success VUndefined) h /\
            forall v, Success VUndefined = Success v -> strict_eq v (get h o k) = true)
    as Hfields.
  { intros k u Hin. apply list_elem_of_fmap in Hin as ([k' t] & [= -> ->] & Hin).
    cbn [fst snd]. rewrite (Habsent k' t Hin). split; [|by intros v [= <-]].
    cbn [union validate union_validate].
    destruct (Hundef k' t Hin) as [[e He] | Hok].
    - rewrite (bind_Ok _ _ _ _ _ He). reflexivity.
    - by rewrite (bind_Ok _ _ _ _ _ Hok). }
  rewrite (bind_Ok _ _ _ _ _
             (interface_loop_stable o h (fun _ _ => Success VUndefined) partials []
                Hfields)).
  rewrite lefts_all_success; [done|]. apply Forall_fmap, Forall_forall. done.
Qed.

Lemma partial_accepts_absent_witness :
  validate (partial [("foo", string_); ("bar", DateFromNumber)] None) (VRef 0) (KString "")
           (mkDecoder "T") [ODictionary [("baz", VNumber 1)]]
  = Ok (Success (VRef 0)) [ODictionary [("baz", VNumber 1)]].
Proof.
  apply (partial_accepts_absent [("foo", string_); ("bar", DateFromNumber)] None (VRef 0)
           (KString "") (mkDecoder "T") [ODictionary [("baz", VNumber 1)]]).
  - reflexivity.
  - intros k t Hin. apply list_elem_of_In in Hin.
    destruct Hin as [[= <- <-] | [[= <- <-] | []]]; reflexivity.
  - intros k t Hin. apply list_elem_of_In in Hin.
    destruct Hin as [[= <- <-] | [[= <- <-] | []]]; left; eexists; reflexivity.
Defined.

(** ** What validators leave in place *)

Lemma heap_prefix_refl (h : heap) : h `prefix_of` h.
Proof. exists []. by rewrite app_nil_r. Qed.

Lemma heap_prefix_trans (h1 h2 h3 : heap) :
  h1 `prefix_of` h2 -> h2 `prefix_of` h3 -> h1 `prefix_of` h3.
Proof. intros [k1 ->] [k2 ->]. exists (k1 ++ k2). by rewrite app_assoc. Qed.

Lemma heap_prefix_alloc (h0 h : heap) (o : object) :
  h0 `prefix_of` h -> h0 `prefix_of` (h ++ [o]).
Proof. intros [k ->]. exists (k ++ [o]). by rewrite app_assoc. Qed.

Lemma heap_prefix_length (h0 h : heap) : h0 `prefix_of` h -> length h0 <= length h.
Proof. intros [k ->]. rewrite length_app. lia. Qed.

Lemma heap_prefix_insert (h0 h : heap) (l : loc) (o : object) :
  h0 `prefix_of` h -> length h0 <= l -> h0 `prefix_of` <[l := o]> h.
Proof.
  change heap with (list object) in *.
  intros [k ->] Hl. exists (<[l - length h0 := o]> k). by apply insert_app_r_alt.
Qed.

Lemma heap_prefix_lookup (h0 h : heap) (l : loc) (o : object) :
  h0 `prefix_of` h -> h0 !! l = Some o -> h !! l = Some o.
Proof.
  change heap with (list object) in *.
  intros [k ->] Hl. by apply lookup_app_l_Some.
Qed.

Lemma set_fresh (h0 h h' : heap) l k v u :
  set (VRef l) k v h = Ok u h' -> h0 `prefix_of` h -> length h0 <= l -> h0 `prefix_of` h'.
Proof.
  unfold set. intros H Hpre Hl.
  destruct (h !! l) as [[elems|entries|z|info]|]; try (by injection H as _ <-).
  - destruct (key_index (S (length elems)) k); injection H as _ <-; [|done].
    by apply heap_prefix_insert.
  - injection H as _ <-. by apply heap_prefix_insert.
Qed.

Lemma set_index_fresh (h0 h h' : heap) l i v u :
  set_index (VRef l) i v h = Ok u h' -> h0 `prefix_of` h -> length h0 <= l ->
  h0 `prefix_of` h'.
Proof.
  unfold set_index. intros H Hpre Hl.
  destruct (h !! l) as [[elems|entries|z|info]|]; try (by injection H as _ <-);
    injection H as _ <-; by apply heap_prefix_insert.
Qed.

Lemma guard_validate_store (g : Is) m c decoder h r h' :
  guard_validate g m c decoder h = Ok r h' -> h' = h.
Proof. unfold guard_validate. rewrite bind_reads. by intros [= _ <-]. Qed.

Lemma basic_types_monotone :
  Forall store_monotone
    [nullType; undefinedType; any; never; string_; number; boolean; arrayType;
     Dictionary; object_; Function].
Proof.
  repeat constructor; intros m c decoder h r h' H;
    try (apply guard_validate_store in H as ->; apply heap_prefix_refl);
    injection H as _ <-; apply heap_prefix_refl.
Qed.

Lemma undefinedType_monotone : store_monotone undefinedType.
Proof.
  intros m c decoder h r h' H. apply guard_validate_store in H as ->.
  apply heap_prefix_refl.
Qed.

Lemma DateFromNumber_monotone : store_monotone DateFromNumber.
Proof.
  intros m c decoder h r h' H. cbn [DateFromNumber validate] in H.
  apply bind_inv_Ok in H as (v & h1 & Hn & H).
  apply guard_validate_store in Hn as ->.
  destruct v as [e|[| | |z| | |]]; try done.
  - injection H as _ <-. apply heap_prefix_refl.
  - cbn [chain] in H. apply bind_inv_Ok in H as (d & h2 & Ha & H).
    injection Ha as _ <-. injection H as _ <-. apply heap_prefix_alloc, heap_prefix_refl.
Qed.

Lemma union_validate_monotone types : forall i m c decoder acc h r h',
  Forall store_monotone types ->
  union_validate types i m c decoder acc h = Ok r h' -> h `prefix_of` h'.
Proof.
  induction types as [|t types IH]; intros i m c decoder acc h r h' Hmono H.
  - injection H as _ <-. apply heap_prefix_refl.
  - apply Forall_cons in Hmono as [Ht Hmono]. cbn [union_validate] in H.
    apply bind_inv_Ok in H as (v & h1 & Hv & H). apply Ht in Hv.
    destruct v as [e|w].
    + eapply heap_prefix_trans; [done|]. by eapply IH.
    + by injection H as _ <-.
Qed.

Lemma intersection_loop_monotone its : forall st h st' h',
  Forall (fun it => store_monotone (snd it)) its ->
  for_each its intersection_step st h = Ok st' h' -> h `prefix_of` h'.
Proof.
  induction its as [|[i t] its IH]; intros [a acc] h st' h' Hmono H.
  - injection H as _ <-. apply heap_prefix_refl.
  - apply Forall_cons in Hmono as [Ht Hmono]. cbn [for_each] in H.
    apply bind_inv_Ok in H as (st1 & h1 & Hstep & H).
    unfold intersection_step in Hstep. cbv beta iota zeta in Hstep.
    apply bind_inv_Ok in Hstep as (v & h2 & Hv & Hstep). apply Ht in Hv.
    assert (h1 = h2) as -> by (destruct v; by injection Hstep as _ <-).
    eapply heap_prefix_trans; [done|]. by eapply IH.
Qed.

(** X11.  The logical combinators add no store effect of their own: a
    refinement, a union, an intersection or a pipe of types whose
    validators only ever add objects to the store is such a type again. *)
Theorem logical_combinators_preserve_store
    (t u : RType) (types : list RType) (predicate : Predicate) (oname : option string) :
  store_monotone t -> store_monotone u -> Forall store_monotone types ->
  store_monotone (refinement t predicate oname) /\
  store_monotone (union types oname) /\
  store_monotone (intersection types oname) /\
  store_monotone (pipe t u oname).
Proof.
  intros Ht Hu Htypes. repeat split; intros m c decoder h r h' H.
  - cbn [refinement validate] in H. apply bind_inv_Ok in H as (v & h1 & Hv & H).
    apply Ht in Hv. destruct v as [e|w]; [by injection H as _ <-|].
    rewrite bind_reads in H. by injection H as _ <-.
  - cbn [union validate] in H.
    exact (union_validate_monotone _ _ _ _ _ _ _ _ _ Htypes H).
  - cbn [intersection validate] in H. apply bind_inv_Ok in H as ([a acc] & h1 & Hloop & H).
    injection H as _ <-. eapply intersection_loop_monotone; [|done].
    apply Forall_forall. intros [i t'] Hin. apply elem_of_indexed in Hin.
    cbn [snd]. eapply Forall_forall in Htypes; [done|]. by eapply list_elem_of_lookup_2.
  - cbn [pipe validate] in H. apply bind_inv_Ok in H as (v & h1 & Hv & H).
    apply Ht in Hv. destruct v as [e|w]; [by injection H as _ <-|].
    apply Hu in H. by eapply heap_prefix_trans.
Qed.

Lemma logical_combinators_preserve_store_witness :
  [OArray []] `prefix_of` [OArray []; ODate 7].
Proof.
  destruct (logical_combinators_preserve_store number DateFromNumber
              [string_; DateFromNumber] reject_all None)
    as (_ & Hunion & _ & _).
  - eapply Forall_forall; [apply basic_types_monotone|]. set_solver.
  - apply DateFromNumber_monotone.
  - repeat constructor; [|apply DateFromNumber_monotone].
    eapply Forall_forall; [apply basic_types_monotone|]. set_solver.
  - apply (Hunion (VNumber 7) (KString "") (mkDecoder "T") [OArray []]
             (Success (VRef 1)) [OArray []; ODate 7]).
    reflexivity.
Defined.

Lemma interface_step_monotone (h0 : heap) o k t a acc h a1 acc1 h1 :
  store_monotone t ->
  h0 `prefix_of` h ->
  (a = o \/ exists l, a = VRef l /\ length h0 <= l) ->
  interface_step o (k, t) (a, acc) h = Ok (a1, acc1) h1 ->
  h0 `prefix_of` h1 /\ (a1 = o \/ exists l, a1 = VRef l /\ length h0 <= l).
Proof.
  intros Ht Hpre Hinv H. unfold interface_step in H. cbv beta iota zeta in H.
  rewrite bind_reads in H. apply bind_inv_Ok in H as (v & h2 & Hv & H).
  apply Ht in Hv. pose proof (heap_prefix_trans _ _ _ Hpre Hv) as Hpre2.
  destruct v as [e|w]; [by injection H as <- _ <-|].
  destruct (negb (strict_eq w (get h o k))); [|by injection H as <- _ <-].
  apply bind_inv_Ok in H as (a' & h3 & Ha & H).
  apply bind_inv_Ok in H as (u & h4 & Hset & H). injection H as <- _ <-.
  destruct (strict_eq a o) eqn:Hao.
  - unfold spread, alloc in Ha. injection Ha as <- <-.
    pose proof (heap_prefix_length _ _ Hpre2) as Hlen. split.
    + eapply set_fresh; [done | by apply heap_prefix_alloc | done].
    + right. by eexists.
  - injection Ha as <- <-. destruct Hinv as [-> | (l & -> & Hl)].
    + apply strict_eq_irrefl in Hao as ->. unfold set in Hset. injection Hset as _ <-.
      split; [done | by left].
    + split; [by eapply set_fresh | right; by eexists].
Qed.

Lemma interface_loop_monotone (h0 : heap) o props : forall a acc h a' acc' h',
  Forall (fun kt => store_monotone (snd kt)) props ->
  h0 `prefix_of` h ->
  (a = o \/ exists l, a = VRef l /\ length h0 <= l) ->
  for_each props (interface_step o) (a, acc) h = Ok (a', acc') h' ->
  h0 `prefix_of` h'.
Proof.
  induction props as [|[k t] props IH]; intros a acc h a' acc' h' Hmono Hpre Hinv H.
  - by injection H as _ _ <-.
  - apply Forall_cons in Hmono as [Ht Hmono]. cbn [for_each] in H.
    apply bind_inv_Ok in H as ([a1 acc1] & h1 & Hstep & H).
    eapply interface_step_monotone in Hstep as [Hpre1 Hinv1]; [|done..].
    by eapply IH.
Qed.

Lemma interface_monotone props oname :
  Forall (fun kt => store_monotone (snd kt)) props ->
  store_monotone (interface props oname).
Proof.
  intros Hmono m c decoder h r h' H. cbn [interface validate] in H.
  apply bind_inv_Ok in H as (v & h1 & Hd & H).
  apply guard_validate_store in Hd as ->.
  destruct v as [e|o]; [injection H as _ <-; apply heap_prefix_refl|].
  apply bind_inv_Ok in H as ([a errors] & h2 & Hloop & H). injection H as _ <-.
  eapply interface_loop_monotone; [done | apply heap_prefix_refl | by left | done].
Qed.

(** X12.  The object combinators copy before they write: for an
    interface, a partial or a strict type over field types whose validators
    only ever add objects to the store, validation leaves every object that
    was in the store, the input included, as it was. *)
Theorem object_combinators_preserve_store (props : Props) (oname : option string) :
  Forall (fun kt => store_monotone (snd kt)) props ->
  store_monotone (interface props oname) /\
  store_monotone (partial props oname) /\
  store_monotone (strict props oname).
Proof.
  intros Hmono. split; [by apply interface_monotone|]. split.
  - intros m c decoder h r h' H. cbn [partial validate] in H.
    eapply (interface_monotone _ None); [|done].
    apply Forall_fmap, Forall_forall. intros [k t] Hin.
    assert (Forall store_monotone [t; undefinedType]) as HF.
    { repeat constructor; [|apply undefinedType_monotone].
      rewrite Forall_forall in Hmono. exact (Hmono (k, t) Hin). }
    unfold compose. cbn [fst snd]. intros m' c' decoder' h1 r' h1' H'.
    exact (union_validate_monotone _ _ _ _ _ _ _ _ _ HF H').
  - intros m c decoder h r h' H. cbn [strict validate] in H.
    apply bind_inv_Ok in H as (v & h1 & Hloose & H).
    apply (interface_monotone props None Hmono) in Hloose.
    destruct v as [e|o]; [by injection H as _ <-|].
    rewrite bind_reads in H. by injection H as _ <-.
Qed.

Lemma object_combinators_preserve_store_witness :
  [ODictionary [("foo", VNumber 1)]]
  `prefix_of` [ODictionary [("foo", VNumber 1)]; ODate 1; ODictionary [("foo", VRef 1)]].
Proof.
  destruct (object_combinators_preserve_store [("foo", DateFromNumber)] None)
    as (Hinterface & _ & _).
  - repeat constructor. apply DateFromNumber_monotone.
  - apply (Hinterface (VRef 0) (KString "") (mkDecoder "T")
             [ODictionary [("foo", VNumber 1)]] (Success (VRef 2))
             [ODictionary [("foo", VNumber 1)]; ODate 1; ODictionary [("foo", VRef 1)]]).
    reflexivity.
Defined.

Lemma tuple_step_monotone (h0 : heap) as_ i ty t acc h t1 acc1 h1 :
  store_monotone ty ->
  h0 `prefix_of` h ->
  (t = as_ \/ exists l, t = VRef l /\ length h0 <= l) ->
  tuple_step as_ (i, ty) (t, acc) h = Ok (t1, acc1) h1 ->
  h0 `prefix_of` h1 /\ (t1 = as_ \/ exists l, t1 = VRef l /\ length h0 <= l).
Proof.
  intros Ht Hpre Hinv H. unfold tuple_step in H. cbv beta iota zeta in H.
  rewrite bind_reads in H. apply bind_inv_Ok in H as (v & h2 & Hv & H).
  apply Ht in Hv. pose proof (heap_prefix_trans _ _ _ Hpre Hv) as Hpre2.
  destruct v as [e|w]; [by injection H as <- _ <-|].
  destruct (negb (strict_eq w (get_index h as_ i))); [|by injection H as <- _ <-].
  apply bind_inv_Ok in H as (t' & h3 & Ha & H).
  apply bind_inv_Ok in H as (u & h4 & Hset & H). injection H as <- _ <-.
  destruct (strict_eq t as_) eqn:Hao.
  - unfold slice, alloc in Ha. injection Ha as <- <-.
    pose proof (heap_prefix_length _ _ Hpre2) as Hlen. split.
    + eapply set_index_fresh; [done | by apply heap_prefix_alloc | done].
    + right. by eexists.
  - injection Ha as <- <-. destruct Hinv as [-> | (l & -> & Hl)].
    + apply strict_eq_irrefl in Hao as ->. unfold set_index in Hset.
      injection Hset as _ <-. split; [done | by left].
    + split; [by eapply set_index_fresh | right; by eexists].
Qed.

Lemma tuple_loop_monotone (h0 : heap) as_ its : forall t acc h t' acc' h',
  Forall (fun it => store_monotone (snd it)) its ->
  h0 `prefix_of` h ->
  (t = as_ \/ exists l, t = VRef l /\ length h0 <= l) ->
  for_each its (tuple_step as_) (t, acc) h = Ok (t', acc') h' ->
  h0 `prefix_of` h'.
Proof.
  induction its as [|[i ty] its IH]; intros t acc h t' acc' h' Hmono Hpre Hinv H.
  - by injection H as _ _ <-.
  - apply Forall_cons in Hmono as [Ht Hmono]. cbn [for_each] in H.
    apply bind_inv_Ok in H as ([t1 acc1] & h1 & Hstep & H).
    eapply tuple_step_monotone in Hstep as [Hpre1 Hinv1]; [|done..].
    by eapply IH.
Qed.

(** X13.  A tuple copies before it writes: over member types whose
    validators only ever add objects to the store, validation leaves every
    object that was in the store, the input array included, as it was (the
    array combinator, whose copy guard differs, does not). *)
Theorem tuple_preserves_store (types : list RType) (oname : option string)
    (m : mixed) (c : Key) (decoder : Decoder) (h h' : heap) (r : Validation) :
  Forall store_monotone types ->
  validate (tuple types oname) m c decoder h = Ok r h' ->
  h `prefix_of` h'.
Proof.
  intros Hmono H. cbn [tuple validate] in H.
  apply bind_inv_Ok in H as (v & h1 & Harr & H).
  apply guard_validate_store in Harr as ->.
  destruct v as [e|as_]; [injection H as _ <-; apply heap_prefix_refl|].
  apply bind_inv_Ok in H as ([t errors] & h2 & Hloop & H).
  rewrite bind_reads in H. injection H as _ <-.
  eapply tuple_loop_monotone; [| apply heap_prefix_refl | by left | done].
  apply Forall_forall. intros [i ty] Hin. apply elem_of_indexed in Hin.
  cbn [snd]. eapply Forall_forall in Hmono; [done|]. by eapply list_elem_of_lookup_2.
Qed.

Lemma tuple_preserves_store_witness :
  [OArray [VNumber 1]] `prefix_of` [OArray [VNumber 1]; ODate 1; OArray [VRef 1]].
Proof.
  apply (tuple_preserves_store [DateFromNumber] None (VRef 0) (KString "") (mkDecoder "T")
           [OArray [VNumber 1]] [OArray [VNumber 1]; ODate 1; OArray [VRef 1]]
           (Success (VRef 2))).
  - repeat constructor. apply DateFromNumber_monotone.
  - reflexivity.
Defined.

Lemma dictionary_step_monotone (h0 : heap) domain codomain o n k st h st' h' :
  store_monotone domain -> store_monotone codomain ->
  h0 `prefix_of` h -> length h0 <= n ->
  dictionary_step domain codomain o (VRef n) k st h = Ok st' h' ->
  h0 `prefix_of` h'.
Proof.
  intros Hdom Hcod Hpre Hn H. destruct st as [errors changed].
  unfold dictionary_step in H. cbv beta iota zeta in H. rewrite bind_reads in H.
  apply bind_inv_Ok in H as (dv & h1 & Hd & H). apply Hdom in Hd.
  apply bind_inv_Ok in H as (cv & h2 & Hc & H). apply Hcod in Hc.
  pose proof (heap_prefix_trans _ _ _ (heap_prefix_trans _ _ _ Hpre Hd) Hc) as Hpre2.
  destruct dv as [e|vk], cv as [e'|vok];
    try (by injection H as _ <-);
    apply bind_inv_Ok in H as (u & h3 & Hset & H); injection H as _ <-;
    by eapply set_fresh.
Qed.

Lemma dictionary_loop_monotone (h0 : heap) domain codomain o n keys : forall st h st' h',
  store_monotone domain -> store_monotone codomain ->
  h0 `prefix_of` h -> length h0 <= n ->
  for_each keys (dictionary_step domain codomain o (VRef n)) st h = Ok st' h' ->
  h0 `prefix_of` h'.
Proof.
  induction keys as [|k keys IH]; intros st h st' h' Hdom Hcod Hpre Hn H.
  - by injection H as _ <-.
  - cbn [for_each] in H. apply bind_inv_Ok in H as (st1 & h1 & Hstep & H).
    eapply dictionary_step_monotone in Hstep; [|done..]. by eapply IH.
Qed.

(** X14.  A dictionary type builds its result in an object of its own:
    over a domain and a codomain whose validators only ever add objects to
    the store, validation leaves every object that was in the store, the
    input included, as it was. *)
Theorem dictionary_preserves_store (domain codomain : RType) (oname : option string)
    (m : mixed) (c : Key) (decoder : Decoder) (h h' : heap) (r : Validation) :
  store_monotone domain -> store_monotone codomain ->
  validate (dictionary domain codomain oname) m c decoder h = Ok r h' ->
  h `prefix_of` h'.
Proof.
  intros Hdom Hcod H. cbn [dictionary validate] in H.
  apply bind_inv_Ok in H as (v & h1 & Hd & H).
  apply guard_validate_store in Hd as ->.
  destruct v as [e|o]; [injection H as _ <-; apply heap_prefix_refl|].
  apply bind_inv_Ok in H as (a & h2 & Ha & H). unfold alloc in Ha. injection Ha as <- <-.
  rewrite bind_reads in H.
  apply bind_inv_Ok in H as ([errors changed] & h3 & Hloop & H). injection H as _ <-.
  eapply dictionary_loop_monotone in Hloop;
    [done | done | done | apply heap_prefix_alloc, heap_prefix_refl | done].
Qed.

Lemma dictionary_preserves_store_witness :
  [ODictionary [("a", VNumber 1)]]
  `prefix_of` [ODictionary [("a", VNumber 1)]; ODictionary [("a", VRef 2)]; ODate 1].
Proof.
  apply (dictionary_preserves_store string_ DateFromNumber None (VRef 0) (KString "")
           (mkDecoder "T") [ODictionary [("a", VNumber 1)]]
           [ODictionary [("a", VNumber 1)]; ODictionary [("a", VRef 2)]; ODate 1]
           (Success (VRef 1))).
  - eapply Forall_forall; [apply basic_types_monotone|]. set_solver.
  - apply DateFromNumber_monotone.
  - reflexivity.
Defined.

(** ** Building a tagged union *)





(** ** Encoding an interface *)

Lemma assoc_cons_None {A} k' k (t : A) props :
  assoc k' ((k, t) :: props) = None -> k <> k' /\ assoc k' props = None.
Proof.
  cbn [assoc]. destruct (bool_decide (k = k')) eqn:Hk; [done|].
  by apply bool_decide_eq_false in Hk.
Qed.

Lemma interface_encode_loop (h0 : heap) l n k' entries props : forall h u h',
  Forall (fun kt => encode_monotone (encode (snd kt))) props ->
  assoc k' props = None ->
  h0 `prefix_of` h -> length h0 <= n ->
  (exists E, h !! n = Some (ODictionary E) /\ assoc k' E = assoc k' entries) ->
  for_each props
    (fun kt (_ : unit) =>
       let* ak := getM (VRef l) (fst kt) in
       let* v := run_encode (encode (snd kt)) ak in
       set (VRef n) (fst kt) v) u h = Ok tt h' ->
  h0 `prefix_of` h' /\
  exists E, h' !! n = Some (ODictionary E) /\ assoc k' E = assoc k' entries.
Proof.
  induction props as [|[k t] props IH]; intros h u h' Hmono Hnone Hpre Hn HE H.
  - by injection H as _ <-.
  - apply Forall_cons in Hmono as [Ht Hmono].
    apply assoc_cons_None in Hnone as [Hk Hnone].
    cbn [for_each fst snd] in H. rewrite bind_assoc in H. cbn [getM] in H.
    rewrite bind_reads in H. rewrite bind_assoc in H.
    apply bind_inv_Ok in H as (v & h1 & Henc & H). apply Ht in Henc.
    apply bind_inv_Ok in H as ([] & h2 & Hset & H).
    destruct HE as (E & HE & Hassoc).
    pose proof (heap_prefix_lookup _ _ _ _ Henc HE) as HE1.
    unfold set in Hset. rewrite HE1 in Hset. injection Hset as <-.
    eapply IH in H; [done | done | done | | done |].
    + apply heap_prefix_insert; [|done]. by eapply heap_prefix_trans.
    + exists (entries_set E k v). split.
      * change heap with (list object) in *.
        apply list_lookup_insert_eq. by eapply lookup_lt_Some.
      * rewrite assoc_entries_set. by rewrite bool_decide_eq_false_2.
Qed.

Lemma DateFromNumber_encode_monotone : encode_monotone (encode DateFromNumber).
Proof.
  intros a h b h' H. cbn in H.
  destruct a as [| | | | |l|]; try done.
  destruct (h !! l) as [[| |z|]|]; try done. injection H as _ <-. apply heap_prefix_refl.
Qed.

(** X16.  Encoding through an interface keeps the keys the interface
    does not declare: the encoded object holds, under every undeclared key,
    what the input object holds there, and no object of the store is
    overwritten (the encoder of [partial] differs on this). *)
Theorem interface_encode_keeps_undeclared_keys
    (props : Props) (oname : option string) (l : loc) (entries : list (string * mixed))
    (h h' : heap) (b : mixed) (k' : string) :
  h !! l = Some (ODictionary entries) ->
  Forall (fun kt => encode_monotone (encode (snd kt))) props ->
  hasOwnProperty props k' = false ->
  run_encode (encode (interface props oname)) (VRef l) h = Ok b h' ->
  get h' b k' = get h (VRef l) k' /\ h `prefix_of` h'.
Proof.
  intros Hl Hmono Hundeclared H. cbn [interface encode] in H.
  destruct (useIdentity props).
  { injection H as <- <-. split; [done | apply heap_prefix_refl]. }
  cbn [run_encode] in H.
  apply bind_inv_Ok in H as (s & h1 & Hs & H).
  unfold spread, alloc in Hs. cbn [own_enumerable] in Hs. rewrite Hl in Hs.
  injection Hs as <- <-.
  apply bind_inv_Ok in H as ([] & h2 & Hloop & H). injection H as <- <-.
  assert (assoc k' props = None) as Hnone.
  { unfold hasOwnProperty in Hundeclared. apply bool_decide_eq_false in Hundeclared.
    destruct (assoc k' props); [|done]. by destruct Hundeclared. }
  eapply (interface_encode_loop h l (length h) k' entries) in Hloop
    as (Hpre & E & HE & Hassoc);
    [ | done | done | apply heap_prefix_alloc, heap_prefix_refl | done
      | exists entries; split; [apply lookup_alloc | done] ].
  split; [|done]. unfold get, get_own, prototype_of. change heap with (list object) in *.
  change loc with nat in *. by rewrite HE, Hl, Hassoc.
Qed.

Lemma interface_encode_keeps_undeclared_keys_witness :
  get [ODate 1; ODictionary [("foo", VRef 0); ("bar", VNumber 2)];
       ODictionary [("foo", VNumber 1); ("bar", VNumber 2)]] (VRef 2) "bar"
  = get [ODate 1; ODictionary [("foo", VRef 0); ("bar", VNumber 2)]] (VRef 1) "bar" /\
  [ODate 1; ODictionary [("foo", VRef 0); ("bar", VNumber 2)]]
  `prefix_of` [ODate 1; ODictionary [("foo", VRef 0); ("bar", VNumber 2)];
               ODictionary [("foo", VNumber 1); ("bar", VNumber 2)]].
Proof.
  apply (interface_encode_keeps_undeclared_keys [("foo", DateFromNumber)] None 1
           [("foo", VRef 0); ("bar", VNumber 2)]
           [ODate 1; ODictionary [("foo", VRef 0); ("bar", VNumber 2)]]
           [ODate 1; ODictionary [("foo", VRef 0); ("bar", VNumber 2)];
            ODictionary [("foo", VNumber 1); ("bar", VNumber 2)]]
           (VRef 2) "bar").
  - reflexivity.
  - repeat constructor. apply DateFromNumber_encode_monotone.
  - reflexivity.
  - reflexivity.
Defined.

(** ** Validators that agree with their type guards *)












(** ** Tuples on short arrays *)

Lemma tuple_loop_unchanged l elems h types : forall lo acc,
  h !! l = Some (OArray elems) ->
  VNumber NaN ∉ elems ->
  (forall j t, types !! j = Some t ->
     validate t (default VUndefined (elems !! (lo + j))) (KNumber (lo + j)) (asDecoder t) h
     = Ok (Success (default VUndefined (elems !! (lo + j)))) h) ->
  for_each (imap (fun j => pair (lo + j)) types) (tuple_step (VRef l)) (VRef l, acc) h
  = Ok (VRef l, acc) h.
Proof.
  induction types as [|t types IH]; intros lo acc Hl Hnan Hsame; [done|].
  rewrite imap_cons. cbn [for_each]. unfold tuple_step at 1. cbv beta iota zeta.
  rewrite Nat.add_0_r, bind_assoc, bind_reads. cbn [get_index]. rewrite Hl.
  specialize (Hsame 0 t eq_refl) as Hv. rewrite Nat.add_0_r in Hv.
  rewrite bind_assoc, (bind_Ok _ _ _ _ _ Hv), strict_eq_refl.
  2:{ destruct (elems !! lo) as [x|] eqn:Hx; [|done].
      intros Heq. cbn in Heq. subst x. apply Hnan. by eapply list_elem_of_lookup_2. }
  cbn [negb]. rewrite bind_ret.
  rewrite (imap_ext _ (fun j => pair (S lo + j))) by (intros; cbn; f_equal; lia).
  apply IH; [done|done|]. intros j u Hu.
  replace (S lo + j) with (lo + S j) by lia. by apply Hsame.
Qed.

(** X19.  A tuple reads the positions past the end of a shorter array as
    [undefined] and validates them like any other: when every member
    accepts what it finds and changes nothing, and no element is NaN, the
    short array is accepted and returned as it is, although the tuple's
    type guard rejects every array whose length is not the arity.  (An
    element NaN differs from itself, and the tuple then returns a copy.) *)
Theorem tuple_accepts_short_array
    (types : list RType) (oname : option string) (l : loc) (elems : list mixed)
    (c : Key) (decoder : Decoder) (h : heap) :
  h !! l = Some (OArray elems) ->
  length elems < length types ->
  VNumber NaN ∉ elems ->
  (forall j t, types !! j = Some t ->
     validate t (default VUndefined (elems !! j)) (KNumber j) (asDecoder t) h
     = Ok (Success (default VUndefined (elems !! j))) h) ->
  validate (tuple types oname) (VRef l) c decoder h = Ok (Success (VRef l)) h /\
  is_ (tuple types oname) (VRef l) h = false.
Proof.
  intros Hl Hshort Hnan Hsame. split.
  - cbn [tuple validate].
    rewrite (bind_Ok _ _ _ _ _ (arrayType_validate_array h (VRef l) c (asDecoder arrayType)
                                   ltac:(cbn; by rewrite Hl))).
    unfold indexed.
    rewrite (bind_Ok _ _ _ _ _ (tuple_loop_unchanged l elems h types 0 [] Hl Hnan Hsame)).
    rewrite bind_reads. cbn [array_length]. rewrite Hl.
    by rewrite decide_False by lia.
  - cbn [tuple is_ arrayType Array_isArray array_length]. rewrite Hl.
    rewrite bool_decide_eq_false_2 by lia. done.
Qed.

Lemma tuple_accepts_short_array_witness :
  validate (tuple [string_; any; undefinedType] None) (VRef 0) (KString "") (mkDecoder "T")
           [OArray [VString "a"]]
  = Ok (Success (VRef 0)) [OArray [VString "a"]] /\
  is_ (tuple [string_; any; undefinedType] None) (VRef 0) [OArray [VString "a"]] = false.
Proof.
  apply (tuple_accepts_short_array [string_; any; undefinedType] None 0 [VString "a"]
           (KString "") (mkDecoder "T") [OArray [VString "a"]]).
  - reflexivity.
  - cbn. lia.
  - intros Hin. apply list_elem_of_singleton in Hin. discriminate Hin.
  - intros j t Hj. destruct j as [|[|[|j]]]; cbn in Hj; try discriminate;
      injection Hj as <-; reflexivity.
Defined.
